(** * GHOEST-POEM: the live-conversation audio session and the API retry glue

    A shallow embedding of
      - [src/components/LiveConversation.tsx]: the PCM helpers
        ([onaudioprocess], [decodeAudioData]), [filterProfanity], the
        transcript updater of [onmessage], the audio scheduling of
        [onmessage], [handlePauseResume] and [handleStopPlayback];
      - [src/services/geminiService.ts]: [withRetry], [startChat] and
        [sendMessageToChat];
    followed by the properties of the specification, each settled on the
    embedding. *)

From Stdlib Require Import ZArith NArith QArith Qabs Qround Qminmax List Bool Lia Lqa.
From Stdlib Require Import String Ascii.
From Stdlib Require Import Strings.Byte.
Import ListNotations.

Set Implicit Arguments.

(** ** Exceptions and results

    A JavaScript call either returns a value or throws. *)

Inductive Exception : Type :=
| RangeError              (* typed-array view over a misaligned buffer *)
| NotSupportedError       (* Web Audio: createBuffer outside its nominal range *)
| TypeError.              (* property read on undefined *)

Inductive Result (A : Type) : Type :=
| Returned (a : A)
| Threw (e : Exception).

Arguments Returned {A} a.
Arguments Threw {A} e.

(** ** PCM frames: [onaudioprocess] and [decodeAudioData] *)

Module Pcm.

Local Open Scope Z_scope.

(** An element of a [Float32Array].  Every finite binary32 value is a
    rational; the two zeros are both [Finite 0]. *)
Inductive float : Type :=
| Finite (q : Q)
| NaN
| PosInfinity
| NegInfinity.

(** [x * 32768] in binary64: the operand is a binary32 value and 32768 is
    a power of two, so the product is exact. *)
Definition times32768 (x : float) : float :=
  match x with
  | Finite q => Finite (q * 32768)%Q
  | other => other
  end.

(** ECMAScript [truncate]: the integral part, rounding towards zero. *)
Definition truncate (q : Q) : Z := Z.quot (Qnum q) (Zpos (Qden q)).

(** ECMAScript [ToInt16], the conversion applied by a store into an
    [Int16Array]: not finite gives 0; otherwise truncate, reduce modulo
    2^16 and re-centre. *)
Definition ToInt16 (x : float) : Z :=
  match x with
  | Finite q =>
      let int := truncate q in
      let int16bit := int mod 2 ^ 16 in
      if int16bit >=? 2 ^ 15 then int16bit - 2 ^ 16 else int16bit
  | _ => 0
  end.

(** Lines 154-157: [for (i...) int16[i] = inputData[i] * 32768]. *)
Definition encodeSample (x : float) : Z := ToInt16 (times32768 x).

Definition encodeFrame (inputData : list float) : list Z :=
  map encodeSample inputData.

(** The byte that holds [z mod 256]. *)
Definition byteOfZ (z : Z) : byte :=
  match Byte.of_N (Z.to_N (z mod 256)) with
  | Some b => b
  | None => x00
  end.

Definition byteToZ (b : byte) : Z := Z.of_N (Byte.to_N b).

(** [new Uint8Array(int16.buffer)]: the two's-complement bytes of every
    element, low byte first (typed arrays use the platform's byte order,
    little-endian on every browser platform). *)
Fixpoint int16Bytes (int16 : list Z) : list byte :=
  match int16 with
  | [] => []
  | z :: rest => byteOfZ z :: byteOfZ (Z.shiftr z 8) :: int16Bytes rest
  end.

(** The PCM payload that [onaudioprocess] hands to [encode] (base64 is
    applied at the wire boundary by the platform's [btoa]). *)
Definition frameBytes (inputData : list float) : list byte :=
  int16Bytes (encodeFrame inputData).

(** One element read through an [Int16Array] view. *)
Definition int16OfBytes (lo hi : byte) : Z :=
  let u := byteToZ lo + 256 * byteToZ hi in
  if u >=? 2 ^ 15 then u - 2 ^ 16 else u.

(** [new Int16Array(data.buffer)]: throws a RangeError when the byte
    length is not a multiple of 2. *)
Fixpoint Int16Array (data : list byte) : Result (list Z) :=
  match data with
  | [] => Returned []
  | [_] => Threw RangeError
  | lo :: hi :: rest =>
      match Int16Array rest with
      | Returned zs => Returned (int16OfBytes lo hi :: zs)
      | Threw e => Threw e
      end
  end.

Record AudioBuffer : Type := mkAudioBuffer {
  length : nat;              (* frames *)
  sampleRate : Z;
  channelData : list Q       (* channel 0 *)
}.

(** [AudioBuffer.duration], in seconds. *)
Definition duration (b : AudioBuffer) : Q :=
  (inject_Z (Z.of_nat (length b)) / inject_Z (sampleRate b))%Q.

(** Lines 25-34.  [ctx.createBuffer(1, frameCount, 24000)] throws a
    NotSupportedError when [frameCount] is 0.  The quotient
    [dataInt16[i] / 32768.0] is exact, in binary64 and in the binary32
    channel it is stored in. *)
Definition decodeAudioData (data : list byte) : Result AudioBuffer :=
  match Int16Array data with
  | Threw e => Threw e
  | Returned dataInt16 =>
      let frameCount := List.length dataInt16 in
      match frameCount with
      | O => Threw NotSupportedError
      | _ =>
          Returned (mkAudioBuffer frameCount 24000
                      (map (fun d => (inject_Z d / 32768)%Q) dataInt16))
      end
  end.

(** Following the specification's words (section 4.1): each output sample
    is [round(sample * 32768)], wrapped to 16 bits.  [round] is the
    nearest integer, halves upwards, as [Math.round]. *)
Definition round (q : Q) : Z := Qfloor (q + (1 # 2))%Q.

Definition wrap16 (z : Z) : Z :=
  let m := z mod 2 ^ 16 in if m >=? 2 ^ 15 then m - 2 ^ 16 else m.

Definition spec_encodeSample (q : Q) : Z := wrap16 (round (q * 32768)%Q).

(** *** Vocabulary of the properties *)

(** The integral part of a rational, as ECMAScript's [truncate] has it:
    the integer next to it on the side of zero. *)
Definition integralPart (t : Q) (n : Z) : Prop :=
  ((0 <= t /\ inject_Z n <= t < inject_Z n + 1) \/
   (t <= 0 /\ inject_Z n - 1 < t <= inject_Z n))%Q.

End Pcm.

(** ** JavaScript strings *)

Module Js.

Local Open Scope N_scope.

(** A string is a sequence of UTF-16 code units. *)
Definition jsString : Type := list N.

(** An ASCII literal as a string. *)
Definition lit (s : string) : jsString :=
  map N_of_ascii (list_ascii_of_string s).

(** ECMAScript WhiteSpace and LineTerminator code units, the ones
    [String.prototype.trim] strips. *)
Definition isWhiteSpace (c : N) : bool :=
  ((9 <=? c) && (c <=? 13))            (* TAB LF VT FF CR *)
  || (c =? 32) || (c =? 160)           (* SP NBSP *)
  || (c =? 5760)                       (* U+1680 *)
  || ((8192 <=? c) && (c <=? 8202))    (* U+2000 .. U+200A *)
  || (c =? 8232) || (c =? 8233)        (* LS PS *)
  || (c =? 8239) || (c =? 8287)        (* U+202F U+205F *)
  || (c =? 12288) || (c =? 65279).     (* U+3000 U+FEFF *)

Fixpoint trimStart (s : jsString) : jsString :=
  match s with
  | [] => []
  | c :: rest => if isWhiteSpace c then trimStart rest else s
  end.

Definition trimEnd (s : jsString) : jsString := rev (trimStart (rev s)).

Definition trim (s : jsString) : jsString := trimEnd (trimStart s).

(** Truthiness of a string: it is not empty. *)
Definition truthy (s : jsString) : bool :=
  match s with [] => false | _ => true end.

(** The string that [+=] appends for an operand that may be
    [undefined]. *)
Definition toStringOpt (o : option jsString) : jsString :=
  match o with Some s => s | None => lit "undefined" end.

(** *** The regular expressions of [filterProfanity]

    [new RegExp(`\\b${word}\\b`, 'gi')]: no [u] flag, so the word
    characters of [\b] are exactly [A-Za-z0-9_] and case is folded by
    [Canonicalize]. *)

Definition isWordChar (c : N) : bool :=
  ((48 <=? c) && (c <=? 57)) || ((65 <=? c) && (c <=? 90))
  || (c =? 95) || ((97 <=? c) && (c <=? 122)).

Definition isWordCharOpt (o : option N) : bool :=
  match o with Some c => isWordChar c | None => false end.

(** [Canonicalize] without the [u] flag maps a code unit to its upper
    case, except that a non-ASCII code unit is never mapped into ASCII.
    Below 128 this is the function; from 128 on the result stays at or
    above 128 and only its comparison with the canonical form of an ASCII
    code unit matters here, which is the same as for the code unit
    itself. *)
Definition Canonicalize (c : N) : N :=
  if (97 <=? c) && (c <=? 122) then c - 32 else c.

(** [\b]: exactly one of the two neighbours is a word character; outside
    the string counts as a non-word character. *)
Definition wordBoundary (prev next : option N) : bool :=
  xorb (isWordCharOpt prev) (isWordCharOpt next).

(** Matching the literal part of the pattern from the current position:
    the last code unit consumed and the rest of the input. *)
Fixpoint matchLiteral (word : jsString) (prev : option N) (s : jsString)
  : option (option N * jsString) :=
  match word with
  | [] => Some (prev, s)
  | p :: word' =>
      match s with
      | c :: s' =>
          if Canonicalize p =? Canonicalize c
          then matchLiteral word' (Some c) s'
          else None
      | [] => None
      end
  end.

(** Does [/\bword\b/i] match at the current position?  [prev] is the code
    unit before it. *)
Definition matchAt (word : jsString) (prev : option N) (s : jsString) : bool :=
  wordBoundary prev (hd_error s) &&
  match matchLiteral word prev s with
  | Some (last, rest) => wordBoundary last (hd_error rest)
  | None => false
  end.

Definition star : N := 42.

(** [s.replace(regex, '*'.repeat(word.length))] with the [g] flag, for a
    non-empty [word]: matches are looked for from left to right, each
    search resuming where the previous match ended.  [skip] counts the
    code units of the current match that are still to be passed. *)
Fixpoint replaceFrom (word : jsString) (prev : option N) (skip : nat)
         (s : jsString) : jsString :=
  match s with
  | [] => []
  | c :: rest =>
      match skip with
      | S k => replaceFrom word (Some c) k rest
      | O =>
          if matchAt word prev s
          then repeat star (List.length word)
                 ++ replaceFrom word (Some c) (pred (List.length word)) rest
          else c :: replaceFrom word (Some c) 0 rest
      end
  end.

Definition replaceWord (word s : jsString) : jsString :=
  replaceFrom word None 0 s.

(** *** Words of a text

    The maximal runs of a string, each tagged with whether it is made of
    word characters: the whole words of the text and what separates
    them. *)
Fixpoint runs (s : jsString) : list (bool * jsString) :=
  match s with
  | [] => []
  | c :: rest =>
      match runs rest with
      | (b, r) :: more =>
          if Bool.eqb (isWordChar c) b
          then (b, c :: r) :: more
          else (isWordChar c, [c]) :: (b, r) :: more
      | [] => [(isWordChar c, [c])]
      end
  end.

(** Equality of two strings up to case. *)
Fixpoint equalsIgnoreCase (a b : jsString) : bool :=
  match a, b with
  | [], [] => true
  | x :: a', y :: b' => (Canonicalize x =? Canonicalize y) && equalsIgnoreCase a' b'
  | _, _ => false
  end.

(** *** Vocabulary of the properties *)

Definition nonWhite (c : N) : bool := negb (isWhiteSpace c).

Definition isLower (c : N) : bool := (97 <=? c) && (c <=? 122).

(** The last code unit passed after reading [r]. *)
Definition lastOf (r : jsString) (prev : option N) : option N :=
  fold_left (fun _ c => Some c) r prev.

(** A text cut into runs: no run is empty, a run is made of word
    characters or of none, and no two word runs are adjacent. *)
Definition headIsWord (segs : list (bool * jsString)) : bool :=
  match segs with
  | (b, _) :: _ => b
  | [] => false
  end.

Fixpoint wellFormed (segs : list (bool * jsString)) : Prop :=
  match segs with
  | [] => True
  | (b, r) :: rest =>
      r <> [] /\
      Forall (fun c => isWordChar c = b) r /\
      (b = true -> headIsWord rest = false) /\
      wellFormed rest
  end.

Definition flatten (segs : list (bool * jsString)) : jsString :=
  List.concat (map snd segs).

(** One pass of the filter, seen on the runs. *)
Definition censorSeg (word : jsString) (seg : bool * jsString) : bool * jsString :=
  if fst seg && equalsIgnoreCase word (snd seg)
  then (false, repeat star (List.length (snd seg)))
  else seg.

(** *** Vocabulary of the further properties *)

(** A code unit of a filtered text against the one it comes from: kept, or
    a word character turned into an asterisk. *)
Definition keptOrStarred (c c' : N) : Prop :=
  c' = c \/ (c' = star /\ isWordChar c = true).

End Js.

(** ** The live-conversation component *)

Module Live.

Import Js.

(** *** Content filtering (lines 37-46) *)

Definition SFW_PROFANITY_LIST : list jsString :=
  [lit "darn"; lit "heck"; lit "gosh"; lit "shoot"].

(** [forEach] over the list, each pass rewriting the result of the
    previous one. *)
Definition filterProfanity (text : jsString) : jsString :=
  fold_left (fun filteredText word => replaceWord word filteredText)
            SFW_PROFANITY_LIST text.

(** Following the words of the specification: every whole word of the
    text that is, up to case, one of the listed words is replaced by a run
    of asterisks of the same length, and nothing else changes. *)
Definition isProfanity (w : jsString) : bool :=
  existsb (fun p => equalsIgnoreCase p w) SFW_PROFANITY_LIST.

Definition censorRun (run : bool * jsString) : jsString :=
  if fst run && isProfanity (snd run)
  then repeat star (List.length (snd run))
  else snd run.

Definition spec_filterProfanity (text : jsString) : jsString :=
  List.concat (map censorRun (runs text)).

(** *** Data (lines 66-70, 86, and types.ts) *)

Record GroundingChunk : Type := mkGroundingChunk {
  web : option (jsString * jsString);      (* uri, title *)
  maps : option (jsString * jsString)
}.

Inductive Speaker : Type := user_speaker | model_speaker.

Record TranscriptEntry : Type := mkEntry {
  speaker : Speaker;
  text : jsString;
  sources : option (list GroundingChunk)
}.

Record CurrentTurn : Type := mkTurn {
  user : jsString;
  model : jsString;
  modelSources : list GroundingChunk
}.

(** The parts of a [LiveServerMessage] that [onmessage] reads.  A
    transcription's [text] is optional in the SDK.  The inline data of an
    audio part is given as the bytes that [decode] (the platform's
    [atob]) yields for it; [None] stands for an absent or empty base64
    string. *)
Record Part : Type := mkPart {
  inlineData : option (option (list byte))   (* inlineData?, then data? *)
}.

Record LiveServerContent : Type := mkContent {
  inputTranscription : option (option jsString);
  outputTranscription : option (option jsString);
  turnComplete : bool;
  groundingChunks : option (list GroundingChunk);
  modelTurn : option (list Part);
  interrupted : bool
}.

Record LiveServerMessage : Type := mkMessage {
  serverContent : option LiveServerContent
}.

(** *** The transcript updater of [onmessage] (lines 165-204) *)

Definition userEntry (t : jsString) : TranscriptEntry :=
  mkEntry user_speaker t None.

Definition modelEntry (t : jsString) (src : list GroundingChunk) : TranscriptEntry :=
  mkEntry model_speaker t (Some src).

Definition field {A} (f : LiveServerContent -> option A)
           (message : LiveServerMessage) : option A :=
  match serverContent message with Some c => f c | None => None end.

Definition flag (f : LiveServerContent -> bool)
           (message : LiveServerMessage) : bool :=
  match serverContent message with Some c => f c | None => false end.

Definition isSome {A} (o : option A) : bool :=
  match o with Some _ => true | None => false end.

(** The function handed to [setCurrentTurn]: the new pending turn and the
    entries appended to the transcript. *)
Definition updateTurn (message : LiveServerMessage) (prevTurn : CurrentTurn)
  : CurrentTurn * list TranscriptEntry :=
  let hasInput := isSome (field inputTranscription message) in
  let hasOutput := isSome (field outputTranscription message) in
  let isTurnComplete := flag turnComplete message in
  let newSources := field groundingChunks message in
  let newTurn := prevTurn in
  let transcriptUpdates := [] in
  let newTurn :=
    match newSources with
    | Some ns => mkTurn (user newTurn) (model newTurn) (modelSources newTurn ++ ns)
    | None => newTurn
    end in
  let '(newTurn, transcriptUpdates) :=
    if hasOutput && truthy (user newTurn) then
      let userText := trim (user newTurn) in
      let transcriptUpdates :=
        if truthy userText
        then transcriptUpdates ++ [userEntry (filterProfanity userText)]
        else transcriptUpdates in
      (mkTurn [] (model newTurn) (modelSources newTurn), transcriptUpdates)
    else (newTurn, transcriptUpdates) in
  let newTurn :=
    match field inputTranscription message with
    | Some t => mkTurn (user newTurn ++ toStringOpt t) (model newTurn) (modelSources newTurn)
    | None => newTurn
    end in
  let newTurn :=
    match field outputTranscription message with
    | Some t => mkTurn (user newTurn) (model newTurn ++ toStringOpt t) (modelSources newTurn)
    | None => newTurn
    end in
  if isTurnComplete then
    let userText := trim (user newTurn) in
    let transcriptUpdates :=
      if truthy userText
      then transcriptUpdates ++ [userEntry (filterProfanity userText)]
      else transcriptUpdates in
    let transcriptUpdates :=
      if truthy (model newTurn)
      then transcriptUpdates ++ [modelEntry (model newTurn) (modelSources newTurn)]
      else transcriptUpdates in
    (mkTurn [] [] [], transcriptUpdates)
  else (newTurn, transcriptUpdates).

(** The pending bubbles of the render (lines 337-348): what is shown for
    the turn in progress. *)
Definition pendingUserBubble (t : CurrentTurn) : option jsString :=
  if truthy (user t) then Some (filterProfanity (user t)) else None.

Definition pendingModelBubble (t : CurrentTurn) : option jsString :=
  if truthy (model t) then Some (model t) else None.

(** *** Playback state (lines 90-101) *)

Inductive AudioContextState : Type := suspended | running | closed.

(** A started [AudioBufferSourceNode]: its buffer, the value of its
    [playbackRate] and the [when] it was started with. *)
Record AudioBufferSourceNode : Type := mkSource {
  node : nat;                     (* identity of the object *)
  buffer : Pcm.AudioBuffer;
  rate : Q;
  when : Q
}.

Record State : Type := mkState {
  transcript : list TranscriptEntry;
  currentTurn : CurrentTurn;
  playbackRateRef : Q;
  isPaused : bool;
  ctxState : AudioContextState;   (* outputAudioContextRef.current.state *)
  currentTime : Q;                (* outputAudioContextRef.current.currentTime *)
  sourcesRef : list AudioBufferSourceNode;
  nextStartTimeRef : Q;
  started : list AudioBufferSourceNode;  (* history: every source.start() *)
  stopped : list nat                     (* history: every source.stop() *)
}.

Definition initial : State :=
  mkState [] (mkTurn [] [] []) 1 false running 0 [] 0 [] [].

(** The end of a source on the playback clock when it plays through at
    the rate it was started with. *)
Definition endTime (s : AudioBufferSourceNode) : Q :=
  when s + Pcm.duration (buffer s) / rate s.

Definition setText (tr : list TranscriptEntry) (t : CurrentTurn) (s : State) : State :=
  mkState tr t (playbackRateRef s) (isPaused s) (ctxState s) (currentTime s)
          (sourcesRef s) (nextStartTimeRef s) (started s) (stopped s).

Definition setNextStartTime (t : Q) (s : State) : State :=
  mkState (transcript s) (currentTurn s) (playbackRateRef s) (isPaused s)
          (ctxState s) (currentTime s) (sourcesRef s) t (started s) (stopped s).

Definition setContext (c : AudioContextState) (p : bool) (s : State) : State :=
  mkState (transcript s) (currentTurn s) (playbackRateRef s) p c (currentTime s)
          (sourcesRef s) (nextStartTimeRef s) (started s) (stopped s).

(** *** [handlePauseResume] (lines 114-121)

    The promise of [suspend()] / [resume()] is taken as settled, and its
    callback as run, before the next reaction. *)
Definition handlePauseResume (s : State) : State :=
  match ctxState s with
  | running => setContext suspended true s
  | suspended => setContext running false s
  | closed => s
  end.

(** *** [handleStopPlayback] (lines 123-133) *)
Definition handleStopPlayback (s : State) : State :=
  let s1 :=
    mkState (transcript s) (currentTurn s) (playbackRateRef s) (isPaused s)
            (ctxState s) (currentTime s)
            []                                        (* forEach stop; clear *)
            0                                         (* nextStartTimeRef = 0 *)
            (started s)
            (stopped s ++ map node (sourcesRef s)) in
  match ctxState s1 with
  | suspended => setContext running false s1
  | other => setContext other false s1
  end.

(** *** [onmessage] (lines 164-224) *)

(** [message.serverContent?.modelTurn?.parts[0]?.inlineData.data]. *)
Definition base64Audio (message : LiveServerMessage) : Result (option (list byte)) :=
  match field modelTurn message with
  | None => Returned None
  | Some [] => Returned None
  | Some (part :: _) =>
      match inlineData part with
      | None => Threw TypeError
      | Some data => Returned data
      end
  end.

(** Lines 208-218, for the bytes of one audio chunk. *)
Definition scheduleAudio (data : list byte) (s : State) : State * option Exception :=
  let s := setNextStartTime (Qmax (nextStartTimeRef s) (currentTime s)) s in
  match Pcm.decodeAudioData data with
  | Threw e => (s, Some e)
  | Returned audioBuffer =>
      let source :=
        mkSource (List.length (started s)) audioBuffer
                 (playbackRateRef s) (nextStartTimeRef s) in
      (mkState (transcript s) (currentTurn s) (playbackRateRef s) (isPaused s)
               (ctxState s) (currentTime s)
               (sourcesRef s ++ [source])
               (nextStartTimeRef s + Pcm.duration audioBuffer / playbackRateRef s)
               (started s ++ [source])
               (stopped s),
       None)
  end.

Definition onmessage (message : LiveServerMessage) (s : State)
  : State * option Exception :=
  let '(newTurn, transcriptUpdates) := updateTurn message (currentTurn s) in
  let s := setText (transcript s ++ transcriptUpdates) newTurn s in
  match base64Audio message with
  | Threw e => (s, Some e)
  | Returned audio =>
      let '(s, thrown) :=
        match audio with
        | Some data => scheduleAudio data s
        | None => (s, None)
        end in
      match thrown with
      | Some e => (s, Some e)
      | None =>
          if flag interrupted message
          then (handleStopPlayback s, None)
          else (s, None)
      end
  end.

(** *** The other reactions of a session *)

(** The playback-rate slider (lines 107-112, 294-295). *)
Definition setPlaybackRate (r : Q) (s : State) : State :=
  mkState (transcript s) (currentTurn s) r (isPaused s) (ctxState s)
          (currentTime s)
          (map (fun src => mkSource (node src) (buffer src) r (when src))
               (sourcesRef s))
          (nextStartTimeRef s) (started s) (stopped s).

(** The ['ended'] listener of a source (line 215). *)
Definition onended (n : nat) (s : State) : State :=
  mkState (transcript s) (currentTurn s) (playbackRateRef s) (isPaused s)
          (ctxState s) (currentTime s)
          (filter (fun src => negb (Nat.eqb (node src) n)) (sourcesRef s))
          (nextStartTimeRef s) (started s) (stopped s).

(** The playback clock: it advances only while the context runs. *)
Definition tick (dt : Q) (s : State) : State :=
  match ctxState s with
  | running =>
      mkState (transcript s) (currentTurn s) (playbackRateRef s) (isPaused s)
              (ctxState s) (currentTime s + dt) (sourcesRef s)
              (nextStartTimeRef s) (started s) (stopped s)
  | _ => s
  end.

(** One reaction at a time, in arrival order (an exception thrown by
    [onmessage] rejects its promise and the session goes on). *)
Inductive Event : Type :=
| Tick (dt : Q)
| Message (message : LiveServerMessage)
| SetPlaybackRate (r : Q)
| PauseResume
| StopPlayback
| Ended (n : nat).

Definition step (e : Event) (s : State) : State :=
  match e with
  | Tick dt => tick dt s
  | Message m => fst (onmessage m s)
  | SetPlaybackRate r => setPlaybackRate r s
  | PauseResume => handlePauseResume s
  | StopPlayback => handleStopPlayback s
  | Ended n => onended n s
  end.

Definition run (events : list Event) (s : State) : State :=
  fold_left (fun s e => step e s) events s.

(** *** Server events of the specification (section 3) as messages *)

Definition partialInput (t : jsString) : LiveServerMessage :=
  mkMessage (Some (mkContent (Some (Some t)) None false None None false)).

Definition partialOutput (t : jsString) : LiveServerMessage :=
  mkMessage (Some (mkContent None (Some (Some t)) false None None false)).

Definition turnCompleteEvent : LiveServerMessage :=
  mkMessage (Some (mkContent None None true None None false)).

Definition interruptedEvent : LiveServerMessage :=
  mkMessage (Some (mkContent None None false None None true)).

Definition audioChunk (data : list byte) : LiveServerMessage :=
  mkMessage (Some (mkContent None None false None
                             (Some [mkPart (Some (Some data))]) false)).

(** *** Vocabulary of the properties *)

Local Open Scope Q_scope.

Definition setInterrupted (b : bool) (c : LiveServerContent) : LiveServerMessage :=
  mkMessage (Some (mkContent (inputTranscription c) (outputTranscription c)
                             (turnComplete c) (groundingChunks c)
                             (modelTurn c) b)).

(** Every source of the list starts no earlier than its predecessor and
    no earlier than its predecessor's end. *)
Fixpoint chained (l : list AudioBufferSourceNode) : Prop :=
  match l with
  | a :: (b :: _) as rest =>
      when a <= when b /\ endTime a <= when b /\ chained rest
  | _ => True
  end.

(** The same, with the cursor [next] standing for the start of whatever
    is scheduled after the list. *)
Fixpoint chainedTo (next : Q) (l : list AudioBufferSourceNode) : Prop :=
  match l with
  | [] => True
  | a :: rest =>
      let bound := match rest with b :: _ => when b | [] => next end in
      when a <= bound /\ endTime a <= bound /\ chainedTo next rest
  end.

(** The invariant of a session between two flushes. *)
Definition scheduled (s : State) : Prop :=
  0 < playbackRateRef s /\ chainedTo (nextStartTimeRef s) (started s).

(** The reactions that do not flush: everything but a stop and an
    interrupted message; the slider only yields positive rates. *)
Definition keepsSchedule (e : Event) : bool :=
  match e with
  | StopPlayback => false
  | Message m => negb (flag interrupted m)
  | SetPlaybackRate r => negb (Qle_bool r 0)
  | Tick _ | PauseResume | Ended _ => true
  end.

(** Reactions between a flush and the next audio chunk: the clock does not
    run backwards and no audio is scheduled. *)
Definition quiet (e : Event) : bool :=
  match e with
  | Tick dt => Qle_bool 0 dt
  | Message m =>
      match base64Audio m with
      | Returned None => true
      | _ => false
      end
  | SetPlaybackRate _ | PauseResume | StopPlayback | Ended _ => true
  end.

Definition flushedSince (t : Q) (s : State) : Prop :=
  sourcesRef s = [] /\ nextStartTimeRef s = 0%Q /\ t <= currentTime s.

(** Reactions under which the playback clock does not run backwards. *)
Definition clockAdvances (e : Event) : bool :=
  match e with
  | Tick dt => Qle_bool 0 dt
  | Message _ | SetPlaybackRate _ | PauseResume | StopPlayback | Ended _ => true
  end.

(** A source that starts at or after the clock time [t]. *)
Definition startsFrom (t : Q) (source : AudioBufferSourceNode) : Prop :=
  t <= when source.

(** Since a flush at clock time [t], [before] being the sources started
    until then: the clock has not gone back, and the sources started
    later, like those still in the set, start at or after [t]. *)
Definition startedSince (t : Q) (before : list AudioBufferSourceNode)
           (s : State) : Prop :=
  t <= currentTime s /\
  Forall (startsFrom t) (sourcesRef s) /\
  exists later, started s = before ++ later /\ Forall (startsFrom t) later.

Definition playing : State :=
  run [Tick 5; Message (audioChunk [x00; x01; x02; x03])] initial.

(** An entry as the code admits it to the transcript: a user entry is not
    blank, a model entry is not empty. *)
Definition recordable (e : TranscriptEntry) : bool :=
  match speaker e with
  | user_speaker => truthy (trim (text e))
  | model_speaker => truthy (text e)
  end.

(** The four passes, seen on one run. *)
Definition censorAll (seg : bool * jsString) : bool * jsString :=
  fold_left (fun seg word => censorSeg word seg) SFW_PROFANITY_LIST seg.

(** The fragments a message carries. *)
Definition inputFragment (message : LiveServerMessage) : jsString :=
  match field inputTranscription message with
  | Some t => toStringOpt t
  | None => []
  end.

Definition outputFragment (message : LiveServerMessage) : jsString :=
  match field outputTranscription message with
  | Some t => toStringOpt t
  | None => []
  end.

(** The pending user text once the message's input fragment is added
    (after a switch to the model, the earlier text has been taken). *)
Definition userAfterInput (message : LiveServerMessage) (prevTurn : CurrentTurn)
  : jsString :=
  (if isSome (field outputTranscription message) && truthy (user prevTurn)
   then [] else user prevTurn) ++ inputFragment message.

(** *** Vocabulary of the further properties *)

(** The messages among the reactions of a session, in order. *)
Definition messagesOf (events : list Event) : list LiveServerMessage :=
  flat_map (fun e => match e with Message m => [m] | _ => [] end) events.

(** The pending turn and the transcript after one more message. *)
Definition textAfter (st : CurrentTurn * list TranscriptEntry)
           (message : LiveServerMessage) : CurrentTurn * list TranscriptEntry :=
  (fst (updateTurn message (fst st)),
   snd st ++ snd (updateTurn message (fst st))).

Definition feed (messages : list LiveServerMessage)
           (st : CurrentTurn * list TranscriptEntry)
  : CurrentTurn * list TranscriptEntry :=
  fold_left textAfter messages st.

(** The grounding chunks a message carries. *)
Definition chunksOf (message : LiveServerMessage) : list GroundingChunk :=
  match field groundingChunks message with
  | Some ns => ns
  | None => []
  end.

(** What a finished user text, and a finished model text, add to the
    transcript. *)
Definition userPart (u : jsString) : list TranscriptEntry :=
  if truthy (trim u) then [userEntry (filterProfanity (trim u))] else [].

Definition modelPart (m : jsString) (src : list GroundingChunk)
  : list TranscriptEntry :=
  if truthy m then [modelEntry m src] else [].

(** The pause flag says what the output context does. *)
Definition pauseFlagMatches (s : State) : bool :=
  match ctxState s, isPaused s with
  | suspended, true | running, false => true
  | _, _ => false
  end.

End Live.

(** ** The API service: [withRetry], [startChat], [sendMessageToChat] *)

Module Service.

Local Open Scope string_scope.

(** [haystack.includes(needle)]. *)
Fixpoint includes (haystack needle : string) : bool :=
  String.prefix needle haystack
  || match haystack with
     | EmptyString => false
     | String _ rest => includes rest needle
     end.

(** A settled promise.  A rejection carries the thrown value, given by
    what its [toString()] returns. *)
Inductive Outcome (T : Type) : Type :=
| Resolved (value : T)
| Rejected (error : string).

Arguments Resolved {T} value.
Arguments Rejected {T} error.

(** What [withRetry] itself touches: [Math.random] and [setTimeout]. *)
Record Env : Type := mkEnv {
  randomValues : nat -> Q;     (* the value of the k-th Math.random() *)
  randomCalls : nat;
  timeouts : list Q            (* the delay of every setTimeout so far, ms *)
}.

Section WithRetry.

Variable W : Type.           (* the state an API call reads and changes *)
Variable T : Type.
Variable apiCall : W -> Outcome T * W.
Variable initialDelay : Q.

(** Line 22. *)
Definition isRetryable (error : string) : bool :=
  includes error "429" || includes error "500".

(** Line 26, for the incremented [retries]. *)
Definition backoff (retries : nat) (random : Q) : Q :=
  initialDelay * inject_Z (2 ^ Z.of_nat (retries - 1)) + random * 1000.

(** The [while (true)] of lines 17-34.  [remaining] is
    [maxRetries - retries], so the test [retries < maxRetries] of line
    24 is [remaining <> 0]; each iteration that goes round again
    decreases it. *)
Fixpoint retryLoop (remaining retries : nat) (w : W) (env : Env)
  : Outcome T * W * Env :=
  match apiCall w with
  | (Resolved value, w) => (Resolved value, w, env)
  | (Rejected error, w) =>
      match isRetryable error, remaining with
      | true, S remaining =>
          let retries := S retries in
          let delay := backoff retries (randomValues env (randomCalls env)) in
          retryLoop remaining retries w
                    (mkEnv (randomValues env) (S (randomCalls env))
                           (timeouts env ++ [delay]))
      | _, _ => (Rejected error, w, env)
      end
  end.

End WithRetry.

(** Lines 15-35. *)
Definition withRetry {W T} (apiCall : W -> Outcome T * W)
           (maxRetries : nat) (initialDelay : Q) (w : W) (env : Env)
  : Outcome T * W * Env :=
  retryLoop apiCall initialDelay maxRetries 0 w env.

Definition defaultMaxRetries : nat := 3.
Definition defaultInitialDelay : Q := 2000.

(** *** The chat bot (lines 160-185) *)

(** A chat session created by [ai.chats.create]. *)
Record Chat : Type := mkChat {
  session : nat;               (* identity of the object *)
  googleSearch : bool          (* config.tools *)
}.

(** The stream of response texts a [sendMessageStream] call resolves to. *)
Definition ResponseStream : Type := list string.

(** The module variable [chat] and the remote service as seen from it. *)
Record World : Type := mkWorld {
  chat : option Chat;
  created : nat;                               (* sessions created so far *)
  sent : list (nat * string);                  (* every sendMessageStream: session, message *)
  answers : nat -> Outcome ResponseStream      (* what the k-th such call settles to *)
}.

Definition initialWorld (answers : nat -> Outcome ResponseStream) : World :=
  mkWorld None 0 [] answers.

Definition startChat (useGrounding : bool) (w : World) : World :=
  mkWorld (Some (mkChat (created w) useGrounding)) (S (created w))
          (sent w) (answers w).

Definition sendMessageStream (c : Chat) (message : string) (w : World)
  : Outcome ResponseStream * World :=
  (answers w (List.length (sent w)),
   mkWorld (chat w) (created w) (sent w ++ [(session c, message)]) (answers w)).

Definition notInitialized : string :=
  "Error: Chat not initialized. Call startChat first.".

Definition nullDereference : string :=
  "TypeError: Cannot read properties of null (reading 'sendMessageStream')".

(** [() => chat!.sendMessageStream({ message })]: [chat] is read when the
    closure runs. *)
Definition chatCall (message : string) (w : World)
  : Outcome ResponseStream * World :=
  match chat w with
  | Some c => sendMessageStream c message w
  | None => (Rejected nullDereference, w)
  end.

Definition sendMessageToChat (message : string) (w : World) (env : Env)
  : Outcome ResponseStream * World * Env :=
  match chat w with
  | None => (Rejected notInitialized, w, env)
  | Some _ => withRetry (chatCall message) defaultMaxRetries defaultInitialDelay w env
  end.

(** The calls a client makes on the chat bot, in order. *)
Inductive Call : Type :=
| StartChat (useGrounding : bool)
| SendMessage (message : string).

Definition isStartChat (c : Call) : bool :=
  match c with StartChat _ => true | SendMessage _ => false end.

Definition perform (c : Call) (st : World * Env) : World * Env :=
  match c with
  | StartChat g => (startChat g (fst st), snd st)
  | SendMessage m =>
      let '(_, w, env) := sendMessageToChat m (fst st) (snd st) in (w, env)
  end.

Definition performAll (calls : list Call) (st : World * Env) : World * Env :=
  fold_left (fun st c => perform c st) calls st.

Definition isSome_chat (w : World) : bool :=
  match chat w with Some _ => true | None => false end.

(** An API call that settles to the k-th of a given sequence of outcomes
    on its k-th invocation; the state counts the invocations. *)
Definition scripted {T} (outcomes : nat -> Outcome T) (k : nat)
  : Outcome T * nat :=
  (outcomes k, S k).

(** *** Vocabulary of the properties *)

(** A server-side transient failure as the SDK reports it. *)
Definition unavailable : string :=
  "ApiError: got status: 503 Service Unavailable. The model is overloaded.".

(** The module variable holds the session created last. *)
Definition holdsLatest (w : World) : Prop :=
  match chat w with
  | Some c => S (session c) = created w
  | None => True
  end.

(** *** Image editing and speech (lines 55-76 and 241-256) *)

(** The part of a [GenerateContentResponse] these functions read.  A
    field that is absent is [undefined]. *)
Record InlineData : Type := mkInlineData {
  data : option string;
  mimeType : option string
}.

Record ContentPart : Type := mkContentPart {
  inlineData : option InlineData;
  partText : option string
}.

Record Content : Type := mkContent {
  parts : option (list ContentPart)
}.

Record Candidate : Type := mkCandidate {
  content : option Content
}.

Record GenerateContentResponse : Type := mkResponse {
  candidates : option (list Candidate)
}.

(** A value inside a template literal. *)
Definition template (value : option string) : string :=
  match value with
  | Some s => s
  | None => "undefined"
  end.

(** The rejections of a property read on [undefined] and of a [for...of]
    over [undefined], with the messages of V8. *)
Definition readOfUndefined (property : string) : string :=
  "TypeError: Cannot read properties of undefined (reading '" ++ property ++ "')".

Definition notIterable : string :=
  "TypeError: response.candidates[0].content.parts is not iterable".

(** [response.candidates[0].content.parts] as the [for...of] of line 70
    needs it: every step of the chain throws on [undefined]. *)
Definition partsOf (response : GenerateContentResponse)
  : Outcome (list ContentPart) :=
  match candidates response with
  | None => Rejected (readOfUndefined "0")
  | Some [] => Rejected (readOfUndefined "content")
  | Some (candidate :: _) =>
      match content candidate with
      | None => Rejected (readOfUndefined "parts")
      | Some c =>
          match parts c with
          | None => Rejected notIterable
          | Some ps => Resolved ps
          end
      end
  end.

(** Lines 70-74: the data URL of the first part that has inline data. *)
Fixpoint firstImage (ps : list ContentPart) : option string :=
  match ps with
  | [] => None
  | part :: rest =>
      match inlineData part with
      | Some d =>
          Some ("data:" ++ template (mimeType d) ++ ";base64," ++ template (data d))
      | None => firstImage rest
      end
  end.

Definition noImage : string :=
  "Error: Image editing failed to produce an image.".

(** The closure given to [withRetry] on line 55.  The state counts the
    [generateContent] requests; the k-th settles to [responses k]. *)
Definition editImageCall (responses : nat -> Outcome GenerateContentResponse)
           (k : nat) : Outcome string * nat :=
  (match responses k with
   | Rejected error => Rejected error
   | Resolved response =>
       match partsOf response with
       | Rejected error => Rejected error
       | Resolved ps =>
           match firstImage ps with
           | Some url => Resolved url
           | None => Rejected noImage
           end
       end
   end, S k).

Definition editImage (responses : nat -> Outcome GenerateContentResponse)
           (k : nat) (env : Env) : Outcome string * nat * Env :=
  withRetry (editImageCall responses) defaultMaxRetries defaultInitialDelay k env.

(** Line 253:
    [response.candidates?.[0]?.content?.parts?.[0]?.inlineData?.data]. *)
Definition firstAudio (response : GenerateContentResponse) : option string :=
  match candidates response with
  | Some (candidate :: _) =>
      match content candidate with
      | Some c =>
          match parts c with
          | Some (part :: _) =>
              match inlineData part with
              | Some d => data d
              | None => None
              end
          | _ => None
          end
      | None => None
      end
  | _ => None
  end.

Definition noAudio : string := "Error: Failed to generate audio.".

(** The closure of line 241; line 254 tests [!base64Audio], which holds
    of [undefined] and of the empty string. *)
Definition generateSpeechCall (responses : nat -> Outcome GenerateContentResponse)
           (k : nat) : Outcome string * nat :=
  (match responses k with
   | Rejected error => Rejected error
   | Resolved response =>
       match firstAudio response with
       | Some base64Audio =>
           if String.eqb base64Audio "" then Rejected noAudio
           else Resolved base64Audio
       | None => Rejected noAudio
       end
   end, S k).

Definition generateSpeech (responses : nat -> Outcome GenerateContentResponse)
           (k : nat) (env : Env) : Outcome string * nat * Env :=
  withRetry (generateSpeechCall responses) defaultMaxRetries defaultInitialDelay k env.

(** *** Vocabulary of the further properties *)

(** An outcome that ends the loop of [withRetry] whatever the bound: a
    success, or a failure that is not classified as retryable. *)
Definition settles {T} (o : Outcome T) : bool :=
  match o with
  | Resolved _ => true
  | Rejected error => negb (isRetryable error)
  end.

(** The attempt at which a scripted call is given up or succeeds: the
    first from [from] on that settles, at most [bound] attempts later. *)
Fixpoint lastAttempt {T} (outcomes : nat -> Outcome T) (from bound : nat) : nat :=
  match bound with
  | O => from
  | S bound =>
      if settles (outcomes from) then from
      else lastAttempt outcomes (S from) bound
  end.

(** The delays of [n] successive retries, the first being retry number
    [S retries]. *)
Definition delaysFrom (initialDelay : Q) (env : Env) (retries n : nat) : list Q :=
  map (fun i => backoff initialDelay (S (retries + i))
                        (randomValues env (randomCalls env + i)))
      (seq 0 n).

Definition total (delays : list Q) : Q := fold_right Qplus 0%Q delays.

Definition pow2 (n : nat) : Q := inject_Z (2 ^ Z.of_nat n).

Definition Qnat (n : nat) : Q := inject_Z (Z.of_nat n).

(** The sum of [n] backoff delays without their jitter, the first being
    [initialDelay * 2^retries]. *)
Definition geometric (initialDelay : Q) (retries n : nat) : Q :=
  (initialDelay * pow2 retries * (pow2 n - 1))%Q.

Definition hasNoInlineData (part : ContentPart) : Prop := inlineData part = None.

(** A response with the given parts in its first candidate. *)
Definition responseWith (ps : list ContentPart) (others : list Candidate)
  : GenerateContentResponse :=
  mkResponse (Some (mkCandidate (Some (mkContent (Some ps))) :: others)).

End Service.

(** ** The chat bot component: [initializeChat] and [handleSend] *)

Module ChatBot.

Import Js.

Inductive Role : Type := user | model.

Record ChatMessage : Type := mkMessage {
  role : Role;
  text : jsString;
  sources : option (list Live.GroundingChunk)    (* absent on some messages *)
}.

(** What [handleSend] reads of a chunk of the stream: [chunk.text] and
    [chunk.candidates?.[0]?.groundingMetadata?.groundingChunks]. *)
Record StreamChunk : Type := mkChunk {
  chunkText : option jsString;
  groundingChunks : option (list Live.GroundingChunk)
}.

(** The state of the component, the two locals of the [handleSend] call
    in flight, and the calls made on the service. *)
Record State : Type := mkState {
  messages : list ChatMessage;
  input : jsString;
  isLoading : bool;
  error : option jsString;
  useGrounding : bool;
  modelResponse : jsString;                     (* line 41 *)
  streamSources : list Live.GroundingChunk;     (* [sources], line 42 *)
  startChatCalls : list bool;                   (* arguments of [startChat] *)
  sendCalls : list jsString                     (* arguments of [sendMessageToChat] *)
}.

Definition greeting (useGrounding : bool) : jsString :=
  if useGrounding
  then lit "Hello! Web search is enabled. How can I help you find up-to-date information?"
  else lit "Hello! How can I help you today?".

(** Lines 14-20. *)
Definition initializeChat (s : State) : State :=
  mkState [mkMessage model (greeting (useGrounding s)) None]
          (input s) (isLoading s) (error s) (useGrounding s)
          (modelResponse s) (streamSources s)
          (startChatCalls s ++ [useGrounding s]) (sendCalls s).

(** The component once mounted: the effect of lines 22-24 has run. *)
Definition initial : State :=
  initializeChat (mkState [] [] false None false [] [] [] []).

(** [newMessages[newMessages.length - 1] = m] on a copy of the array.
    On an empty array the assignment sets the property [-1], which is no
    element of it. *)
Fixpoint replaceLast (ms : list ChatMessage) (m : ChatMessage) : list ChatMessage :=
  match ms with
  | [] => []
  | [_] => [m]
  | first :: rest => first :: replaceLast rest m
  end.

(** Lines 30-37: the guard, the two messages appended, input cleared,
    and the request of line 40 made. *)
Definition handleSend (s : State) : State :=
  if negb (truthy (trim (input s))) || isLoading s then s
  else
    mkState (messages s ++ [mkMessage user (input s) None;
                            mkMessage model [] (Some [])])
            [] true None (useGrounding s)
            [] []
            (startChatCalls s) (sendCalls s ++ [input s]).

(** Lines 45-58, one turn of the [for await] loop. *)
Definition onChunk (chunk : StreamChunk) (s : State) : State :=
  let modelResponse := modelResponse s ++ toStringOpt (chunkText chunk) in
  let newSources :=
    match groundingChunks chunk with Some l => l | None => [] end in
  let sources :=
    match newSources with
    | [] => streamSources s
    | _ :: _ => streamSources s ++ newSources
    end in
  mkState (replaceLast (messages s)
                       (mkMessage model modelResponse (Some sources)))
          (input s) (isLoading s) (error s) (useGrounding s)
          modelResponse sources
          (startChatCalls s) (sendCalls s).

(** Lines 64-66, after the loop has ended. *)
Definition onStreamEnd (s : State) : State :=
  mkState (messages s) (input s) false (error s) (useGrounding s)
          (modelResponse s) (streamSources s)
          (startChatCalls s) (sendCalls s).

Definition somethingWentWrong : jsString :=
  lit "Sorry, something went wrong. Please try again.".

(** Lines 60-66: [sendMessageToChat] or the stream has thrown. *)
Definition onStreamError (s : State) : State :=
  mkState (removelast (messages s)) (input s) false (Some somethingWentWrong)
          (useGrounding s)
          (modelResponse s) (streamSources s)
          (startChatCalls s) (sendCalls s).

(** Line 136 and the effect of lines 22-24 that the change triggers. *)
Definition toggleGrounding (s : State) : State :=
  initializeChat
    (mkState (messages s) (input s) (isLoading s) (error s)
             (negb (useGrounding s))
             (modelResponse s) (streamSources s)
             (startChatCalls s) (sendCalls s)).

(** Line 119. *)
Definition setInput (value : jsString) (s : State) : State :=
  mkState (messages s) value (isLoading s) (error s) (useGrounding s)
          (modelResponse s) (streamSources s)
          (startChatCalls s) (sendCalls s).

(** What the component reacts to.  The three stream events belong to the
    [handleSend] call in flight, which is there exactly while [isLoading]
    is set; without one they do not occur. *)
Inductive Event : Type :=
| SetInput (value : jsString)
| Send
| ToggleGrounding
| Chunk (chunk : StreamChunk)
| StreamEnd
| StreamError.

Definition step (s : State) (e : Event) : State :=
  match e with
  | SetInput value => setInput value s
  | Send => handleSend s
  | ToggleGrounding => toggleGrounding s
  | Chunk chunk => if isLoading s then onChunk chunk s else s
  | StreamEnd => if isLoading s then onStreamEnd s else s
  | StreamError => if isLoading s then onStreamError s else s
  end.

Definition run (events : list Event) (s : State) : State :=
  fold_left step events s.

(** *** Vocabulary of the properties *)

Definition lastRole (ms : list ChatMessage) : option Role :=
  match rev ms with
  | [] => None
  | m :: _ => Some (role m)
  end.

(** The text and the sources a stream adds up to. *)
Definition streamedText (chunks : list StreamChunk) : jsString :=
  List.concat (map (fun c => toStringOpt (chunkText c)) chunks).

Definition streamedSources (chunks : list StreamChunk)
  : list Live.GroundingChunk :=
  List.concat (map (fun c => match groundingChunks c with
                        | Some l => l
                        | None => []
                        end) chunks).

Definition endsStream (e : Event) : bool :=
  match e with
  | StreamEnd | StreamError => true
  | _ => false
  end.

Definition notBlank (s : jsString) : Prop := truthy (trim s) = true.

End ChatBot.

(** * The embedding on concrete inputs *)

Section Examples.

Import Js Live.

Example encode_half : Pcm.encodeSample (Pcm.Finite (1 # 2)) = 16384%Z.
Proof. reflexivity. Qed.

Example encode_one_wraps : Pcm.encodeSample (Pcm.Finite 1) = (-32768)%Z.
Proof. reflexivity. Qed.

Example encode_out_of_range_wraps :
  Pcm.encodeSample (Pcm.Finite (3 # 2)) = (-16384)%Z.
Proof. reflexivity. Qed.

Example encode_truncates :
  Pcm.encodeSample (Pcm.Finite (3 # 131072)) = 0%Z /\
  Pcm.encodeSample (Pcm.Finite (-3 # 131072)) = 0%Z.
Proof. split; reflexivity. Qed.

Example decode_encoded_frame :
  Pcm.decodeAudioData (Pcm.frameBytes [Pcm.Finite (-1); Pcm.Finite (1 # 2)])
  = Returned (Pcm.mkAudioBuffer 2 24000
                [inject_Z (-32768) / 32768; inject_Z 16384 / 32768]%Q).
Proof. vm_compute; reflexivity. Qed.

Example decode_odd_length :
  Pcm.decodeAudioData [x00; x01; x02] = Threw RangeError.
Proof. reflexivity. Qed.

Example trim_both_ends : trim (lit "  hi there ") = lit "hi there".
Proof. reflexivity. Qed.

Example replace_whole_words_only :
  replaceWord (lit "darn") (lit "Darn it, darn! darning _darn darn")
  = lit "**** it, ****! darning _darn ****".
Proof. reflexivity. Qed.

Example runs_of_a_text :
  runs (lit "oh, darn it")
  = [(true, lit "oh"); (false, lit ", "); (true, lit "darn");
     (false, lit " "); (true, lit "it")].
Proof. reflexivity. Qed.

Example filter_a_text :
  filterProfanity (lit "Oh DARN, what the heck; gosh-shoot shooting")
  = lit "Oh ****, what the ****; ****-***** shooting".
Proof. reflexivity. Qed.

(** The scenarios of section 8 of the specification. *)
Example scenario_hi_hello :
  transcript (run [Message (partialInput (lit "hi"));
                   Message (partialOutput (lit "hello"));
                   Message turnCompleteEvent] initial)
  = [userEntry (lit "hi"); modelEntry (lit "hello") []].
Proof. reflexivity. Qed.

Example scenario_blank_user_turn :
  transcript (run [Message (partialInput (lit "  "));
                   Message turnCompleteEvent] initial)
  = [].
Proof. reflexivity. Qed.

(** Buffers of 1.0 s, 0.5 s and 2.0 s (24000 frames a second, two bytes a
    frame) arriving back to back at time 7 start at 7, 8 and 8.5. *)
Example scenario_three_buffers :
  map (fun source => Qred (when source))
      (started (run [Tick 7;
                     Message (audioChunk (repeat x00 (48 * 1000)));
                     Message (audioChunk (repeat x00 (24 * 1000)));
                     Message (audioChunk (repeat x00 (96 * 1000)))]
                    initial))
  = [7; 8; 17 # 2]%Q.
Proof. vm_compute; reflexivity. Qed.

(** At twice the speed a buffer of 1.0 s takes half a second of the
    clock. *)
Example schedule_at_rate_two :
  map (fun source => Qred (when source))
      (started (run [SetPlaybackRate 2;
                     Message (audioChunk (repeat x00 (48 * 1000)));
                     Message (audioChunk (repeat x00 (48 * 1000)))]
                    initial))
  = [0; 1 # 2]%Q.
Proof. vm_compute; reflexivity. Qed.

(** After a flush at clock time 5 the first chunk starts at the clock,
    and the one that follows back to back starts behind it, later than
    the clock time of its own submission. *)
Example two_chunks_after_flush :
  let s := run [StopPlayback;
                Message (audioChunk [x00; x01; x02; x03]);
                Message (audioChunk [x00; x01])] playing in
  Qred (currentTime s) = 5%Q /\
  map (fun source => Qred (when source)) (sourcesRef s) = [5; 60001 # 12000]%Q.
Proof. vm_compute; split; reflexivity. Qed.

Example includes_429 :
  Service.includes "ApiError: got status: 429 Too Many Requests" "429" = true.
Proof. reflexivity. Qed.

(** Two rate-limit failures, then a success: two timeouts of 2000 and 4000
    ms plus jitter, three attempts. *)
Example retry_twice_then_succeed :
  Service.withRetry
    (Service.scripted (fun k => match k with
                                | 0%nat | 1%nat => Service.Rejected "Error: 429"
                                | _ => Service.Resolved 7%nat
                                end))
    3 2000 0%nat (Service.mkEnv (fun _ => 1 # 2) 0 [])
  = (Service.Resolved 7%nat, 3%nat,
     Service.mkEnv (fun _ => 1 # 2) 2
                   [2000 * inject_Z 1 + (1 # 2) * 1000;
                    2000 * inject_Z 2 + (1 # 2) * 1000]).
Proof. reflexivity. Qed.

End Examples.

(** * Properties *)

(** ** Stop/flush and pause *)

Section StopPlayback.

Import Live.

Lemma handleStopPlayback_text (s : State) :
  transcript (handleStopPlayback s) = transcript s /\
  currentTurn (handleStopPlayback s) = currentTurn s.
Proof. unfold handleStopPlayback; simpl; destruct (ctxState s); auto. Qed.

Lemma handleStopPlayback_schedule (s : State) :
  sourcesRef (handleStopPlayback s) = [] /\
  nextStartTimeRef (handleStopPlayback s) = 0 /\
  stopped (handleStopPlayback s) = stopped s ++ map node (sourcesRef s) /\
  started (handleStopPlayback s) = started s /\
  currentTime (handleStopPlayback s) = currentTime s /\
  playbackRateRef (handleStopPlayback s) = playbackRateRef s.
Proof. unfold handleStopPlayback; simpl; destruct (ctxState s); simpl; auto 10. Qed.

(** C9.  After [handleStopPlayback] the paused flag is cleared, and a
    suspended output context has been resumed (a running one stays
    running): the session is never left paused by a stop/flush. *)
Theorem C9_stop_leaves_session_unpaused (s : State) :
  isPaused (handleStopPlayback s) = false /\
  ctxState (handleStopPlayback s) =
    match ctxState s with
    | suspended => running
    | other => other
    end.
Proof.
  unfold handleStopPlayback; simpl.
  destruct (ctxState s); simpl; split; reflexivity.
Qed.

Lemma updateTurn_setInterrupted (b : bool) (c : LiveServerContent) (t : CurrentTurn) :
  updateTurn (setInterrupted b c) t = updateTurn (setInterrupted false c) t.
Proof. reflexivity. Qed.

Lemma onmessage_text_setInterrupted (b : bool) (c : LiveServerContent) (s : State) :
  transcript (fst (onmessage (setInterrupted b c) s))
    = transcript (fst (onmessage (setInterrupted false c) s)) /\
  currentTurn (fst (onmessage (setInterrupted b c) s))
    = currentTurn (fst (onmessage (setInterrupted false c) s)).
Proof.
  unfold onmessage.
  rewrite (updateTurn_setInterrupted b).
  destruct (updateTurn (setInterrupted false c) (currentTurn s)) as [newTurn ups].
  change (base64Audio (setInterrupted b c))
    with (base64Audio (setInterrupted false c)).
  destruct (base64Audio (setInterrupted false c)) as [audio|e]; [|auto].
  set (s1 := setText (transcript s ++ ups) newTurn s).
  assert (Hsched : forall data,
             transcript (fst (scheduleAudio data s1)) = transcript s1 /\
             currentTurn (fst (scheduleAudio data s1)) = currentTurn s1).
  { intros data; unfold scheduleAudio.
    destruct (Pcm.decodeAudioData data); simpl; auto. }
  destruct audio as [data|].
  - specialize (Hsched data).
    destruct (scheduleAudio data s1) as [s2 [e|]]; simpl in *; [auto|].
    destruct b; simpl; [|auto].
    destruct (handleStopPlayback_text s2) as [-> ->]; auto.
  - destruct b; simpl; [|auto].
    destruct (handleStopPlayback_text s1) as [-> ->]; auto.
Qed.

(** C7.  An [interrupted] server event flushes the playback schedule
    (every scheduled source is stopped, the set is emptied, the cursor is
    reset) and leaves the pending user text, the pending model text, the
    accumulated sources and the transcript as they were; more generally
    the [interrupted] flag of a message never changes what the message
    does to them. *)
Theorem C7_interrupted_flushes_and_keeps_text (s : State) :
  let s' := fst (onmessage interruptedEvent s) in
  (sourcesRef s' = [] /\
   nextStartTimeRef s' = 0 /\
   stopped s' = stopped s ++ map node (sourcesRef s)) /\
  (transcript s' = transcript s /\ currentTurn s' = currentTurn s) /\
  (forall c : LiveServerContent,
      transcript (fst (onmessage (setInterrupted true c) s))
        = transcript (fst (onmessage (setInterrupted false c) s)) /\
      currentTurn (fst (onmessage (setInterrupted true c) s))
        = currentTurn (fst (onmessage (setInterrupted false c) s))).
Proof.
  cbv zeta; split; [|split].
  - unfold onmessage, interruptedEvent; simpl.
    unfold handleStopPlayback; simpl.
    destruct (ctxState s); simpl; auto.
  - unfold onmessage, interruptedEvent; simpl.
    unfold handleStopPlayback; simpl.
    destruct (ctxState s); simpl; rewrite app_nil_r; auto.
  - intros c; apply onmessage_text_setInterrupted.
Qed.

End StopPlayback.

(** ** The playback schedule *)

Section Schedule.

Import Live.

Local Open Scope Q_scope.

Lemma chainedTo_chained next l : chainedTo next l -> chained l.
Proof.
  induction l as [|a rest IH]; [simpl; auto|].
  destruct rest as [|b rest]; [simpl; auto|].
  intros (H1 & H2 & H3); split; [exact H1|split; [exact H2|]].
  apply IH; exact H3.
Qed.

Lemma chainedTo_weaken next next' l :
  next <= next' -> chainedTo next l -> chainedTo next' l.
Proof.
  intros Hle; induction l as [|a rest IH]; [simpl; auto|].
  destruct rest as [|b rest].
  - simpl; intros (H1 & H2 & _); repeat split; lra.
  - intros (H1 & H2 & H3); split; [exact H1|split; [exact H2|]].
    apply IH; exact H3.
Qed.

Lemma chainedTo_snoc next next' l src :
  chainedTo next l ->
  next <= when src -> when src <= next' -> endTime src <= next' ->
  chainedTo next' (l ++ [src]).
Proof.
  intros Hl H1 H2 H3; induction l as [|a rest IH]; [simpl; auto|].
  destruct rest as [|b rest].
  - simpl in *; destruct Hl as (Ha & Hb & _); repeat split; auto; lra.
  - destruct Hl as (Ha & Hb & Hc); split; [exact Ha|split; [exact Hb|]].
    apply IH; exact Hc.
Qed.

Lemma decodeAudioData_duration data buf :
  Pcm.decodeAudioData data = Returned buf -> 0 <= Pcm.duration buf.
Proof.
  unfold Pcm.decodeAudioData.
  destruct (Pcm.Int16Array data) as [zs|e]; [|discriminate].
  destruct (List.length zs) eqn:Hn; [discriminate|].
  intros [= <-]; unfold Pcm.duration; simpl Pcm.length; simpl Pcm.sampleRate.
  apply Qle_shift_div_l; [reflexivity|].
  rewrite Qmult_0_l.
  change 0 with (inject_Z 0); rewrite <- Zle_Qle; lia.
Qed.

Lemma scheduleAudio_scheduled data s :
  scheduled s -> scheduled (fst (scheduleAudio data s)).
Proof.
  intros [Hr Hc]; unfold scheduleAudio.
  pose proof (Q.le_max_l (nextStartTimeRef s) (currentTime s)) as Hmax.
  destruct (Pcm.decodeAudioData data) as [buf|e] eqn:Hd; simpl.
  - split; [exact Hr|].
    apply decodeAudioData_duration in Hd.
    assert (Hq : 0 <= Pcm.duration buf / playbackRateRef s).
    { apply Qle_shift_div_l; [exact Hr|]. rewrite Qmult_0_l; exact Hd. }
    eapply chainedTo_snoc; [exact Hc| | |]; unfold endTime; simpl; lra.
  - split; [exact Hr|].
    eapply chainedTo_weaken; [exact Hmax|exact Hc].
Qed.

Lemma step_scheduled e s :
  keepsSchedule e = true -> scheduled s -> scheduled (step e s).
Proof.
  destruct e as [dt|m|r| | |n]; simpl; intros He Hs; try discriminate.
  - unfold tick; destruct (ctxState s); exact Hs.
  - unfold onmessage.
    destruct (updateTurn m (currentTurn s)) as [newTurn ups].
    set (s1 := setText (transcript s ++ ups) newTurn s).
    assert (Hs1 : scheduled s1) by exact Hs.
    destruct (base64Audio m) as [[data|]|e]; simpl; auto.
    + pose proof (scheduleAudio_scheduled data Hs1) as H2.
      destruct (scheduleAudio data s1) as [s2 [e|]]; simpl in *; auto.
      apply negb_true_iff in He; rewrite He; exact H2.
    + apply negb_true_iff in He; rewrite He; exact Hs1.
  - destruct Hs as [_ Hc]; split; simpl; [|exact Hc].
    apply negb_true_iff in He.
    destruct (Qlt_le_dec 0 r) as [Hlt|Hle]; [exact Hlt|].
    apply Qle_bool_iff in Hle; congruence.
  - unfold handlePauseResume; destruct (ctxState s); exact Hs.
  - exact Hs.
Qed.

Lemma run_scheduled events s :
  forallb keepsSchedule events = true -> scheduled s -> scheduled (run events s).
Proof.
  unfold run; revert s; induction events as [|e events IH]; simpl; auto.
  intros s He Hs; apply andb_true_iff in He as [He1 He2].
  apply IH; [exact He2|]. apply step_scheduled; assumption.
Qed.

(** C1.  Between two flushes, whatever the arrival times, the sizes of
    the chunks and the (positive) playback rates in effect, the sources
    are started at non-decreasing times and each one's end, at the rate
    it was started with ([start + duration / rate], which is
    [start + duration] at the default rate 1.0), is at or before the next
    one's start. *)
Theorem C1_scheduled_buffers_never_overlap (events : list Event) (s : State) :
  started s = [] ->
  0 < playbackRateRef s ->
  forallb keepsSchedule events = true ->
  chained (started (run events s)).
Proof.
  intros H0 Hr He.
  apply chainedTo_chained with (next := nextStartTimeRef (run events s)).
  apply run_scheduled; [exact He|].
  split; [exact Hr|]. rewrite H0; exact I.
Qed.

Lemma C1_witness :
  chained (started (run [Message (audioChunk [x00; x01]);
                         SetPlaybackRate 2;
                         Tick (1 # 10);
                         Message (audioChunk [x00; x01; x02; x03]);
                         PauseResume;
                         Message (audioChunk [x05; x06])] initial)).
Proof.
  apply C1_scheduled_buffers_never_overlap; reflexivity.
Defined.

(** *** After a flush *)

Lemma step_flushedSince t e s :
  quiet e = true -> flushedSince t s -> flushedSince t (step e s).
Proof.
  destruct e as [dt|m|r| | |n]; cbn [step quiet]; intros He (Hs & Hn & Ht);
    unfold flushedSince.
  - unfold tick; destruct (ctxState s); repeat split; simpl; auto.
    apply Qle_bool_iff in He; lra.
  - unfold onmessage.
    destruct (updateTurn m (currentTurn s)) as [newTurn ups].
    destruct (base64Audio m) as [[data|]|e]; try discriminate.
    destruct (flag interrupted m); cbn [fst]; unfold flushedSince.
    + destruct (handleStopPlayback_schedule
                  (setText (transcript s ++ ups) newTurn s))
        as (-> & -> & _ & _ & -> & _).
      repeat split; auto.
    + repeat split; auto.
  - repeat split; simpl; auto. rewrite Hs; reflexivity.
  - unfold handlePauseResume; destruct (ctxState s); repeat split; auto.
  - destruct (handleStopPlayback_schedule s) as (-> & -> & _ & _ & -> & _).
    repeat split; auto.
  - repeat split; simpl; auto. rewrite Hs; reflexivity.
Qed.

Lemma run_flushedSince t events s :
  forallb quiet events = true -> flushedSince t s -> flushedSince t (run events s).
Proof.
  unfold run; revert s; induction events as [|e events IH]; simpl; auto.
  intros s He Hs; apply andb_true_iff in He as [He1 He2].
  apply IH; [exact He2|]. apply step_flushedSince; assumption.
Qed.

(** The first chunk after a flush, whatever happens in between short of
    another chunk, starts exactly at the clock time of its own
    submission: the cursor, reset to 0, is behind the clock. *)
Lemma first_chunk_after_flush_starts_at_clock
      (s : State) (events : list Event) (data : list byte) :
  0 <= currentTime s ->
  forallb quiet events = true ->
  let s2 := run events (handleStopPlayback s) in
  let s3 := fst (onmessage (audioChunk data) s2) in
  match Pcm.decodeAudioData data with
  | Returned audioBuffer =>
      exists source,
        sourcesRef s3 = [source] /\
        buffer source = audioBuffer /\
        when source == currentTime s2
  | Threw _ => sourcesRef s3 = []
  end.
Proof.
  intros H0 Hq s2 s3.
  destruct (handleStopPlayback_schedule s) as (Ha & Hb & Hc & _ & He & _).
  assert (Hf : flushedSince (currentTime s) s2).
  { apply run_flushedSince; [exact Hq|].
    repeat split; auto. rewrite He; lra. }
  destruct Hf as (Hs & Hn & Ht).
  subst s3; unfold onmessage, audioChunk; simpl.
  unfold scheduleAudio; simpl.
  destruct (Pcm.decodeAudioData data) as [buf|e]; simpl.
  - eexists; split; [rewrite Hs; reflexivity|]; simpl.
    rewrite Hn.
    assert (0 <= currentTime s2) by lra.
    rewrite Q.max_r by assumption.
    repeat split; auto; lra.
  - exact Hs.
Qed.

Lemma scheduleAudio_startedSince t before data s :
  startedSince t before s -> startedSince t before (fst (scheduleAudio data s)).
Proof.
  intros (Ht & Hs & later & Hl & Hf); unfold scheduleAudio.
  destruct (Pcm.decodeAudioData data) as [audioBuffer|e]; cbn [fst].
  - assert (Hw : startsFrom t
                   (mkSource (List.length (started s)) audioBuffer
                             (playbackRateRef s)
                             (Qmax (nextStartTimeRef s) (currentTime s)))).
    { unfold startsFrom; cbn [when].
      pose proof (Q.le_max_r (nextStartTimeRef s) (currentTime s)); lra. }
    repeat split; cbn.
    + exact Ht.
    + apply Forall_app; split; [exact Hs|].
      apply Forall_cons; [exact Hw|apply Forall_nil].
    + eexists; split; [rewrite Hl, <- app_assoc; reflexivity|].
      apply Forall_app; split; [exact Hf|].
      apply Forall_cons; [exact Hw|apply Forall_nil].
  - repeat split; cbn; [exact Ht|exact Hs|].
    exists later; split; [exact Hl|exact Hf].
Qed.

Lemma handleStopPlayback_startedSince t before s :
  startedSince t before s -> startedSince t before (handleStopPlayback s).
Proof.
  intros (Ht & Hs & Hl).
  destruct (handleStopPlayback_schedule s) as (Ha & _ & _ & Hd & He & _).
  unfold startedSince; rewrite Ha, Hd, He.
  split; [exact Ht|split; [apply Forall_nil|exact Hl]].
Qed.

Lemma step_startedSince t before e s :
  clockAdvances e = true ->
  startedSince t before s -> startedSince t before (step e s).
Proof.
  destruct e as [dt|m|r| | |n]; cbn [step clockAdvances]; intros He H.
  - destruct H as (Ht & Hs & Hl); unfold tick.
    destruct (ctxState s); unfold startedSince; cbn; auto.
    split; [|auto]. apply Qle_bool_iff in He; lra.
  - unfold onmessage.
    destruct (updateTurn m (currentTurn s)) as [newTurn ups].
    assert (H1 : startedSince t before
                   (setText (transcript s ++ ups) newTurn s)) by exact H.
    destruct (base64Audio m) as [[data|]|e]; cbn [fst]; [| |exact H1].
    + pose proof (scheduleAudio_startedSince data H1) as H2.
      destruct (scheduleAudio data (setText (transcript s ++ ups) newTurn s))
        as [s' [e|]]; cbn [fst] in *; [exact H2|].
      destruct (flag interrupted m); cbn [fst];
        [apply handleStopPlayback_startedSince|]; exact H2.
    + destruct (flag interrupted m); cbn [fst];
        [apply handleStopPlayback_startedSince|]; exact H1.
  - destruct H as (Ht & Hs & Hl); unfold startedSince; cbn.
    split; [exact Ht|split; [|exact Hl]].
    apply Forall_map; revert Hs; apply Forall_impl; intros a Ha; exact Ha.
  - unfold handlePauseResume; destruct (ctxState s); exact H.
  - apply handleStopPlayback_startedSince; exact H.
  - destruct H as (Ht & Hs & Hl); unfold startedSince; cbn.
    split; [exact Ht|split; [|exact Hl]].
    rewrite Forall_forall in *; intros a Ha.
    apply filter_In in Ha as [Ha _]; apply Hs, Ha.
Qed.

Lemma run_startedSince t before events s :
  forallb clockAdvances events = true ->
  startedSince t before s -> startedSince t before (run events s).
Proof.
  unfold run; revert s; induction events as [|e events IH]; simpl; auto.
  intros s He Hs; apply andb_true_iff in He as [He1 He2].
  apply IH; [exact He2|]. apply step_startedSince; assumption.
Qed.

(** C4, as the code has it.  [handleStopPlayback] stops every scheduled
    source, empties the set and resets the cursor to 0 (not to the clock
    time), whatever the cursor was.  A chunk starts at
    [max(cursor, clock)], so every source started afterwards, whatever
    the reactions that follow (further chunks, back to back or not,
    rate changes, pauses, other flushes), starts at or after the time of
    the stop; and the first chunk submitted afterwards starts exactly at
    the clock time of its own submission instead of queueing behind the
    earlier cursor. *)
Theorem C4_flush_then_buffers_start_at_or_after_stop
        (s : State) (events : list Event) (data : list byte) :
  0 <= currentTime s ->
  forallb clockAdvances events = true ->
  let s1 := handleStopPlayback s in
  let s2 := run events s1 in
  let s3 := fst (onmessage (audioChunk data) s2) in
  (sourcesRef s1 = [] /\
   stopped s1 = stopped s ++ map node (sourcesRef s) /\
   nextStartTimeRef s1 = 0%Q /\
   forall cursor, handleStopPlayback (setNextStartTime cursor s) = s1) /\
  (exists later,
     started s3 = started s ++ later /\
     Forall (startsFrom (currentTime s)) later) /\
  Forall (startsFrom (currentTime s)) (sourcesRef s3) /\
  (if forallb quiet events
   then match Pcm.decodeAudioData data with
        | Returned audioBuffer =>
            exists source,
              sourcesRef s3 = [source] /\
              buffer source = audioBuffer /\
              when source == currentTime s2
        | Threw _ => sourcesRef s3 = []
        end
   else True).
Proof.
  intros H0 Hc s1 s2 s3.
  destruct (handleStopPlayback_schedule s) as (Ha & Hb & Hd & Hst & Hct & _).
  split.
  { split; [exact Ha|split; [exact Hd|split; [exact Hb|]]].
    intros cursor; unfold s1, handleStopPlayback; cbn.
    destruct (ctxState s); reflexivity. }
  assert (H1 : startedSince (currentTime s) (started s) s1).
  { unfold startedSince, s1; rewrite Ha, Hst, Hct.
    split; [lra|split; [apply Forall_nil|]].
    exists []; rewrite app_nil_r; split; [reflexivity|apply Forall_nil]. }
  assert (H3 : startedSince (currentTime s) (started s) s3).
  { apply (@step_startedSince _ _ (Message (audioChunk data))); [reflexivity|].
    apply run_startedSince; [exact Hc|exact H1]. }
  destruct H3 as (_ & Hs3 & Hl3).
  split; [exact Hl3|split; [exact Hs3|]].
  destruct (forallb quiet events) eqn:Hq; [|exact I].
  apply first_chunk_after_flush_starts_at_clock; assumption.
Qed.

Lemma C4_witness :
  let events := [Tick (1 # 2);
                 Message (audioChunk [x00; x01; x02; x03]);
                 SetPlaybackRate (1 # 2); PauseResume; Tick 3; PauseResume] in
  let s1 := handleStopPlayback playing in
  let s2 := run events s1 in
  let s3 := fst (onmessage (audioChunk [x00; x01]) s2) in
  (sourcesRef s1 = [] /\
   stopped s1 = stopped playing ++ map node (sourcesRef playing) /\
   nextStartTimeRef s1 = 0%Q /\
   forall cursor, handleStopPlayback (setNextStartTime cursor playing) = s1) /\
  (exists later,
     started s3 = started playing ++ later /\
     Forall (startsFrom (currentTime playing)) later) /\
  Forall (startsFrom (currentTime playing)) (sourcesRef s3) /\
  (if forallb quiet events
   then match Pcm.decodeAudioData [x00; x01] with
        | Returned audioBuffer =>
            exists source,
              sourcesRef s3 = [source] /\
              buffer source = audioBuffer /\
              when source == currentTime s2
        | Threw _ => sourcesRef s3 = []
        end
   else True).
Proof.
  exact (C4_flush_then_buffers_start_at_or_after_stop
           playing
           [Tick (1 # 2);
            Message (audioChunk [x00; x01; x02; x03]);
            SetPlaybackRate (1 # 2); PauseResume; Tick 3; PauseResume]
           [x00; x01]
           ltac:(vm_compute; discriminate) ltac:(reflexivity)).
Defined.

(** C4 as stated fails: at clock time 5, with a chunk scheduled, the
    cursor after [handleStopPlayback] is 0, not the clock time. *)
Lemma C4_counterexample :
  currentTime playing == 5 /\
  ~ nextStartTimeRef (handleStopPlayback playing)
    == currentTime (handleStopPlayback playing).
Proof.
  split; [reflexivity|].
  vm_compute; discriminate.
Qed.

End Schedule.

(** ** Retries and the chat bot *)

Section Retries.

Import Service.

Variables (W T : Type) (apiCall : W -> Outcome T * W) (initialDelay : Q).

(** A success, or a failure that is not classified as retryable, ends the
    loop at once, whatever the bound. *)
Lemma retryLoop_resolved remaining retries w env value w' :
  apiCall w = (Resolved value, w') ->
  retryLoop apiCall initialDelay remaining retries w env = (Resolved value, w', env).
Proof. intros H; destruct remaining; simpl; rewrite H; reflexivity. Qed.

Lemma retryLoop_not_retryable remaining retries w env error w' :
  apiCall w = (Rejected error, w') ->
  isRetryable error = false ->
  retryLoop apiCall initialDelay remaining retries w env = (Rejected error, w', env).
Proof. intros H Hr; destruct remaining; simpl; rewrite H, Hr; reflexivity. Qed.

(** A retryable failure goes round again, after one more timeout, while
    the bound is not reached, and is thrown when it is. *)
Lemma retryLoop_retry remaining retries w env error w' :
  apiCall w = (Rejected error, w') ->
  isRetryable error = true ->
  retryLoop apiCall initialDelay (S remaining) retries w env =
  retryLoop apiCall initialDelay remaining (S retries) w'
            (mkEnv (randomValues env) (S (randomCalls env))
                   (timeouts env
                      ++ [backoff initialDelay (S retries)
                                  (randomValues env (randomCalls env))])).
Proof. intros H Hr; simpl; rewrite H, Hr; reflexivity. Qed.

Lemma retryLoop_exhausted retries w env error w' :
  apiCall w = (Rejected error, w') ->
  retryLoop apiCall initialDelay 0 retries w env = (Rejected error, w', env).
Proof.
  intros H; simpl; rewrite H; destruct (isRetryable error); reflexivity.
Qed.

(** The loop never sleeps more than [remaining] times. *)
Lemma retryLoop_timeouts remaining : forall retries w env,
  exists delays,
    timeouts (snd (retryLoop apiCall initialDelay remaining retries w env))
      = timeouts env ++ delays /\
    (List.length delays <= remaining)%nat.
Proof.
  induction remaining as [|remaining IH]; intros retries w env.
  - exists []; simpl. rewrite app_nil_r.
    destruct (apiCall w) as [[v|e] w']; simpl; auto.
    destruct (isRetryable e); simpl; auto.
  - simpl. destruct (apiCall w) as [[v|e] w']; simpl.
    + exists []; rewrite app_nil_r; simpl; split; [reflexivity|lia].
    + destruct (isRetryable e).
      * edestruct IH as (delays & -> & Hlen); simpl.
        eexists (_ :: delays); rewrite <- app_assoc; simpl.
        split; [reflexivity|lia].
      * exists []; rewrite app_nil_r; simpl; split; [reflexivity|lia].
Qed.

End Retries.

Section RetryClassification.

Import Service.

Local Open Scope string_scope.

(** C6, at the input where the code departs from it.  A call that fails
    once with a 503 and would succeed at the next attempt is not retried:
    [withRetry] makes one attempt, sets no timeout and throws the 503.
    (Line 22 looks for the substrings 429 and 500 only, though its own
    comment announces 5xx.) *)
Theorem C6_service_unavailable_is_not_retried (T : Type) (value : T) (env : Env) :
  isRetryable unavailable = false /\
  withRetry (scripted (fun k => match k with
                                | O => Rejected unavailable
                                | S _ => Resolved value
                                end))
            defaultMaxRetries defaultInitialDelay 0%nat env
  = (Rejected unavailable, 1%nat, env).
Proof. split; reflexivity. Qed.

End RetryClassification.

Section ChatBot.

Import Service.

Local Open Scope nat_scope.

Lemma chatCall_current message c w :
  chat w = Some c ->
  chatCall message w =
  (answers w (List.length (sent w)),
   mkWorld (Some c) (created w) (sent w ++ [(session c, message)]) (answers w)).
Proof. intros Hc; unfold chatCall, sendMessageStream; rewrite Hc; reflexivity. Qed.

Lemma retryLoop_chatCall message c remaining : forall retries w env,
  chat w = Some c ->
  exists n,
    1 <= n <= S remaining /\
    let r := retryLoop (chatCall message) defaultInitialDelay
                       remaining retries w env in
    sent (snd (fst r)) = sent w ++ repeat (session c, message) n /\
    fst (fst r) = answers w (List.length (sent w) + n - 1) /\
    chat (snd (fst r)) = Some c /\
    created (snd (fst r)) = created w /\
    answers (snd (fst r)) = answers w.
Proof.
  assert (Hone : forall k, k + 1 - 1 = k) by (intros; lia).
  induction remaining as [|remaining IH]; intros retries w env Hc;
    pose proof (chatCall_current message w Hc) as Hcall;
    destruct (answers w (List.length (sent w))) as [v|e] eqn:Ha.
  - exists 1; split; [lia|]; cbv zeta.
    rewrite (retryLoop_resolved _ _ _ _ _ _ Hcall), Hone; simpl; auto.
  - exists 1; split; [lia|]; cbv zeta.
    rewrite (retryLoop_exhausted _ _ _ _ _ Hcall), Hone; simpl; auto.
  - exists 1; split; [lia|]; cbv zeta.
    rewrite (retryLoop_resolved _ _ _ _ _ _ Hcall), Hone; simpl; auto.
  - destruct (isRetryable e) eqn:Hr.
    + rewrite (retryLoop_retry _ _ _ _ _ _ Hcall Hr).
      match goal with
      | |- context [retryLoop _ _ remaining ?r ?w' ?env'] =>
          destruct (IH r w' env' eq_refl) as (n & Hn & H1 & H2 & H3 & H4 & H5)
      end.
      exists (S n); split; [lia|]; cbv zeta in *.
      rewrite H1, H2, H3, H4, H5; simpl.
      rewrite <- app_assoc, length_app; simpl.
      repeat split; auto.
      f_equal; lia.
    + exists 1; split; [lia|]; cbv zeta.
      rewrite (retryLoop_not_retryable _ _ _ _ _ _ Hcall Hr), Hone; simpl; auto.
Qed.

Lemma sendMessageToChat_chat message w env :
  chat (snd (fst (sendMessageToChat message w env))) = chat w /\
  created (snd (fst (sendMessageToChat message w env))) = created w.
Proof.
  unfold sendMessageToChat; destruct (chat w) as [c|] eqn:Hc; simpl; auto.
  destruct (retryLoop_chatCall message defaultMaxRetries 0 w env Hc)
    as (n & _ & _ & _ & H3 & H4 & _).
  unfold withRetry; cbv zeta in *; rewrite H3, H4; auto.
Qed.

Lemma performAll_holdsLatest calls : forall st,
  holdsLatest (fst st) -> holdsLatest (fst (performAll calls st)).
Proof.
  induction calls as [|c calls IH]; intros st Hst; simpl; auto.
  unfold performAll in *; simpl; apply IH.
  destruct c as [g|m]; simpl.
  - reflexivity.
  - pose proof (sendMessageToChat_chat m (fst st) (snd st)) as [H1 H2].
    destruct (sendMessageToChat m (fst st) (snd st)) as [[o w] e]; simpl in *.
    unfold holdsLatest in *; rewrite H1, H2; exact Hst.
Qed.

Lemma performAll_chat calls : forall st,
  isSome_chat (fst (performAll calls st))
  = existsb isStartChat calls || isSome_chat (fst st).
Proof.
  induction calls as [|c calls IH]; intros st; simpl; auto.
  unfold performAll in *; simpl; rewrite IH.
  destruct c as [g|m]; simpl.
  - rewrite orb_true_r; reflexivity.
  - pose proof (sendMessageToChat_chat m (fst st) (snd st)) as [H _].
    destruct (sendMessageToChat m (fst st) (snd st)) as [[o w] e]; simpl in *.
    unfold isSome_chat; rewrite H; reflexivity.
Qed.

(** C10.  After any sequence of chat calls from a fresh module: if
    [startChat] has not been called yet, [sendMessageToChat] throws
    "Chat not initialized. Call startChat first." and touches nothing; if
    it has, the message goes to the current chat session (the one made by
    the latest [startChat]), between one and four times as [withRetry]
    decides, and the call settles as the last of these attempts did. *)
Theorem C10_sendMessageToChat_requires_startChat
        (remote : nat -> Outcome ResponseStream) (env0 : Env)
        (calls : list Call) (message : string) :
  let st := performAll calls (initialWorld remote, env0) in
  let r := sendMessageToChat message (fst st) (snd st) in
  if existsb isStartChat calls
  then exists c n,
      chat (fst st) = Some c /\
      S (session c) = created (fst st) /\
      1 <= n <= 4 /\
      sent (snd (fst r)) = sent (fst st) ++ repeat (session c, message) n /\
      fst (fst r) = answers (fst st) (List.length (sent (fst st)) + n - 1)
  else r = (Rejected notInitialized, fst st, snd st).
Proof.
  intros st r.
  pose proof (performAll_chat calls (initialWorld remote, env0)) as H.
  fold st in H; simpl in H; rewrite orb_false_r in H.
  unfold isSome_chat in H.
  destruct (existsb isStartChat calls).
  - destruct (chat (fst st)) as [c|] eqn:Hc; [|discriminate].
    destruct (retryLoop_chatCall message defaultMaxRetries 0
                                 (fst st) (snd st) Hc)
      as (n & Hn & H1 & H2 & _).
    pose proof (performAll_holdsLatest calls (initialWorld remote, env0) I)
      as Hl.
    fold st in Hl; unfold holdsLatest in Hl; rewrite Hc in Hl.
    exists c, n; split; [reflexivity|]; split; [exact Hl|]; split; [exact Hn|].
    subst r; unfold sendMessageToChat, withRetry; rewrite Hc; auto.
  - destruct (chat (fst st)) as [c|] eqn:Hc; [discriminate|].
    subst r; unfold sendMessageToChat; rewrite Hc; reflexivity.
Qed.

End ChatBot.

(** ** PCM frames *)

Section PcmFrames.

Import Pcm.

Local Open Scope Z_scope.

Lemma byteToZ_byteOfZ z : byteToZ (byteOfZ z) = z mod 256.
Proof.
  unfold byteToZ, byteOfZ.
  assert (Hr : 0 <= z mod 256 < 256) by (apply Z.mod_pos_bound; lia).
  destruct (Byte.of_N (Z.to_N (z mod 256))) as [b|] eqn:Hb.
  - apply Byte.to_of_N in Hb. rewrite Hb. rewrite Z2N.id; lia.
  - apply Byte.of_N_None_iff in Hb. lia.
Qed.

Lemma int16OfBytes_int16 z :
  -32768 <= z <= 32767 ->
  int16OfBytes (byteOfZ z) (byteOfZ (Z.shiftr z 8)) = z.
Proof.
  intros Hz; unfold int16OfBytes.
  rewrite !byteToZ_byteOfZ, Z.shiftr_div_pow2 by lia.
  change (2 ^ 8) with 256; change (2 ^ 15) with 32768; change (2 ^ 16) with 65536.
  destruct (Z.geb_spec (z mod 256 + 256 * (z / 256 mod 256)) 32768);
    Z.to_euclidean_division_equations; lia.
Qed.

Lemma truncate_integralPart t : integralPart t (truncate t).
Proof.
  destruct t as [N D]; unfold integralPart, truncate; simpl Qnum; simpl Qden.
  pose proof (Z.quot_rem' N (Zpos D)) as Hqr.
  destruct (Z_le_gt_dec 0 N) as [Hpos|Hneg].
  - left.
    pose proof (Z.rem_bound_pos N (Zpos D) Hpos ltac:(lia)) as Hb.
    unfold Qle, Qlt, Qplus, inject_Z; simpl.
    rewrite ?Z.mul_1_r, ?Pos.mul_1_r. nia.
  - right.
    pose proof (Z.rem_nonpos N (Zpos D) ltac:(lia) ltac:(lia)) as Hb.
    pose proof (Z.rem_bound_abs N (Zpos D) ltac:(lia)) as Hb'.
    unfold Qle, Qlt, Qminus, Qplus, Qopp, inject_Z; simpl.
    rewrite ?Z.mul_1_r, ?Pos.mul_1_r. nia.
Qed.

Lemma wrap_range z :
  let m := z mod 2 ^ 16 in
  let r := if m >=? 2 ^ 15 then m - 2 ^ 16 else m in
  -32768 <= r <= 32767 /\ (r - z) mod 65536 = 0.
Proof.
  cbv zeta. change (2 ^ 16) with 65536; change (2 ^ 15) with 32768.
  destruct (Z.geb_spec (z mod 65536) 32768);
    Z.to_euclidean_division_equations; lia.
Qed.

Lemma wrap_int16 z :
  -32768 <= z <= 32767 ->
  (let m := z mod 2 ^ 16 in if m >=? 2 ^ 15 then m - 2 ^ 16 else m) = z.
Proof.
  intros Hz; cbv zeta. change (2 ^ 16) with 65536; change (2 ^ 15) with 32768.
  destruct (Z.geb_spec (z mod 65536) 32768);
    Z.to_euclidean_division_equations; lia.
Qed.

(** C5, as the code has it.  Every finite sample is encoded as the
    integral part of [sample * 32768], rounding towards zero (the
    conversion of a store into an [Int16Array]; not the nearest integer),
    reduced to the 16-bit signed range modulo 2^16 with no clamping, so an
    out-of-range product wraps around; a sample that is not finite is
    encoded as 0.  The encoder is a function of the sample alone. *)
Theorem C5_encoder_truncates_and_wraps (x : float) :
  match x with
  | Finite q =>
      exists n : Z,
        integralPart (q * 32768)%Q n /\
        -32768 <= encodeSample x <= 32767 /\
        (encodeSample x - n) mod 65536 = 0
  | _ => encodeSample x = 0
  end.
Proof.
  destruct x as [q| | |]; try reflexivity.
  exists (truncate (q * 32768)%Q); split; [apply truncate_integralPart|].
  unfold encodeSample, times32768, ToInt16.
  apply wrap_range.
Qed.

(** C5 as stated fails: 0.75 / 32768 rounds to 1 and is encoded as 0. *)
Lemma C5_counterexample :
  spec_encodeSample (3 # 131072) = 1 /\
  encodeSample (Finite (3 # 131072)) = 0 /\
  encodeSample (Finite (3 # 131072)) <> spec_encodeSample (3 # 131072).
Proof. repeat split; vm_compute; discriminate. Qed.

Lemma integralPart_range (q : Q) n :
  (-1 <= q)%Q -> (q < 1)%Q -> integralPart (q * 32768)%Q n -> -32768 <= n <= 32767.
Proof.
  intros H1 H2 [[H3 [H4 H5]]|[H3 [H4 H5]]].
  - assert (Ha : (inject_Z n < 32768)%Q) by lra.
    assert (Hb : (-1 < inject_Z n + 1)%Q) by lra.
    change 32768%Q with (inject_Z 32768) in Ha.
    change 1%Q with (inject_Z 1) in Hb.
    change (-1)%Q with (inject_Z (-1)) in Hb.
    rewrite <- inject_Z_plus in Hb.
    rewrite <- Zlt_Qlt in Ha, Hb. lia.
  - assert (Ha : (-32768 <= inject_Z n)%Q) by lra.
    assert (Hb : (inject_Z n + -1 < 0)%Q) by lra.
    change (-32768)%Q with (inject_Z (-32768)) in Ha.
    change (-1)%Q with (inject_Z (-1)) in Hb.
    change 0%Q with (inject_Z 0) in Hb.
    rewrite <- inject_Z_plus in Hb.
    rewrite <- Zle_Qle in Ha. rewrite <- Zlt_Qlt in Hb. lia.
Qed.

Lemma encodeSample_in_range (q : Q) :
  (-1 <= q)%Q -> (q < 1)%Q ->
  encodeSample (Finite q) = truncate (q * 32768)%Q /\
  -32768 <= truncate (q * 32768)%Q <= 32767.
Proof.
  intros H1 H2.
  pose proof (integralPart_range H1 H2 (truncate_integralPart _)) as Hr.
  split; [|exact Hr].
  unfold encodeSample, times32768, ToInt16. apply wrap_int16; exact Hr.
Qed.

Lemma decode_encode_close (q : Q) :
  (-1 <= q)%Q -> (q < 1)%Q ->
  (Qabs (inject_Z (encodeSample (Finite q)) / 32768 - q) < 1 # 32768)%Q.
Proof.
  intros H1 H2.
  destruct (encodeSample_in_range H1 H2) as [-> _].
  pose proof (truncate_integralPart (q * 32768)%Q) as Hi.
  set (n := truncate (q * 32768)%Q) in *.
  apply Qabs_Qlt_condition.
  assert (He : (inject_Z n / 32768 == inject_Z n * (1 # 32768))%Q) by reflexivity.
  rewrite He.
  destruct Hi as [[H3 [H4 H5]]|[H3 [H4 H5]]]; split; lra.
Qed.

Lemma Int16Array_int16Bytes zs :
  Forall (fun z => -32768 <= z <= 32767) zs ->
  Int16Array (int16Bytes zs) = Returned zs.
Proof.
  induction 1 as [|z zs Hz _ IH]; simpl; [reflexivity|].
  rewrite IH, int16OfBytes_int16 by exact Hz; reflexivity.
Qed.

(** C3, as the code has it.  For a non-empty block of samples in
    [-1, 1) (1.0 itself excluded), decoding the bytes of the encoded frame
    returns a buffer with one sample per input sample, each within one
    quantization step (less than 1/32768) of the original. *)
Theorem C3_round_trip_within_one_step (block : list Q) :
  block <> [] ->
  Forall (fun q => -1 <= q /\ q < 1)%Q block ->
  exists audioBuffer,
    decodeAudioData (frameBytes (map Finite block)) = Returned audioBuffer /\
    Pcm.length audioBuffer = List.length block /\
    Forall2 (fun q y => Qabs (y - q) < 1 # 32768)%Q
            block (channelData audioBuffer).
Proof.
  intros Hne Hin.
  assert (Hrange : Forall (fun z => -32768 <= z <= 32767)
                          (encodeFrame (map Finite block))).
  { clear Hne; unfold encodeFrame; rewrite map_map.
    induction Hin as [|q qs [H1 H2] _ IH]; simpl; constructor; auto.
    destruct (encodeSample_in_range H1 H2) as [-> Hr]; exact Hr. }
  unfold decodeAudioData, frameBytes.
  rewrite (Int16Array_int16Bytes Hrange).
  unfold encodeFrame; rewrite !length_map.
  destruct block as [|q0 block]; [congruence|].
  cbn [List.length].
  eexists; split; [reflexivity|]; split; [reflexivity|].
  cbn [channelData]; rewrite !map_map.
  clear Hne Hrange.
  induction Hin as [|q qs [H1 H2] _ IH]; simpl; constructor; auto.
  apply decode_encode_close; assumption.
Qed.

Lemma C3_witness :
  exists audioBuffer,
    decodeAudioData (frameBytes (map Finite [1 # 3; -1; 32767 # 32768; 0]%Q))
      = Returned audioBuffer /\
    Pcm.length audioBuffer = 4%nat /\
    Forall2 (fun q y => Qabs (y - q) < 1 # 32768)%Q
            [1 # 3; -1; 32767 # 32768; 0]%Q (channelData audioBuffer).
Proof.
  apply (C3_round_trip_within_one_step (block := [1 # 3; -1; 32767 # 32768; 0]%Q)).
  - discriminate.
  - repeat constructor; vm_compute; discriminate.
Defined.

(** C3 as stated fails at the sample 1.0, which is in [-1, 1]: it is
    encoded as -32768 and decoded as -1.0. *)
Lemma C3_counterexample :
  exists y,
    decodeAudioData (frameBytes [Finite 1])
      = Returned (mkAudioBuffer 1 24000 [y]) /\
    (y == -1)%Q /\
    ~ (Qabs (y - 1) <= 1 # 32768)%Q.
Proof.
  eexists; split; [vm_compute; reflexivity|].
  split; [reflexivity|].
  vm_compute; intros H; apply H; reflexivity.
Qed.

End PcmFrames.

(** ** Strings: trimming and the profanity filter *)

Section Trimming.

Import Js.

Lemma truthy_trimStart s : truthy (trimStart s) = existsb nonWhite s.
Proof.
  induction s as [|c s IH]; simpl; [reflexivity|].
  unfold nonWhite at 1; destruct (isWhiteSpace c); simpl; auto.
Qed.

Lemma existsb_trimStart s : existsb nonWhite (trimStart s) = existsb nonWhite s.
Proof.
  induction s as [|c s IH]; simpl; [reflexivity|].
  destruct (isWhiteSpace c) eqn:Hc; simpl.
  - rewrite IH; unfold nonWhite at 2; rewrite Hc; reflexivity.
  - reflexivity.
Qed.

Lemma existsb_nonWhite_rev s : existsb nonWhite (rev s) = existsb nonWhite s.
Proof.
  induction s as [|c s IH]; simpl; [reflexivity|].
  rewrite existsb_app, IH; simpl; rewrite orb_false_r; apply orb_comm.
Qed.

Lemma truthy_rev (s : jsString) : truthy (rev s) = truthy s.
Proof.
  destruct s as [|c s]; simpl; [reflexivity|].
  destruct (rev s); reflexivity.
Qed.

(** A string survives trimming exactly when it has a code unit that is
    not white space, and so does the trimmed string. *)
Lemma truthy_trim s : truthy (trim s) = existsb nonWhite s.
Proof.
  unfold trim, trimEnd.
  rewrite truthy_rev, truthy_trimStart, existsb_nonWhite_rev.
  apply existsb_trimStart.
Qed.

Lemma existsb_nonWhite_trim s : existsb nonWhite (trim s) = existsb nonWhite s.
Proof.
  unfold trim, trimEnd.
  rewrite existsb_nonWhite_rev, existsb_trimStart, existsb_nonWhite_rev.
  apply existsb_trimStart.
Qed.

Lemma existsb_nonWhite_stars n s :
  n <> O -> existsb nonWhite (repeat star n ++ s) = true.
Proof. destruct n; [congruence|reflexivity]. Qed.

Lemma existsb_nonWhite_replaceFrom word : word <> [] ->
  forall s prev,
    existsb nonWhite s = true ->
    existsb nonWhite (replaceFrom word prev 0 s) = true.
Proof.
  intros Hw; induction s as [|c s IH]; intros prev H; [discriminate|].
  cbn [replaceFrom].
  destruct (matchAt word prev (c :: s)).
  - apply existsb_nonWhite_stars. destruct word; [congruence|discriminate].
  - simpl in *. destruct (nonWhite c); simpl in *; auto.
Qed.

Lemma existsb_nonWhite_filterProfanity s :
  existsb nonWhite s = true ->
  existsb nonWhite (Live.filterProfanity s) = true.
Proof.
  intros H; unfold Live.filterProfanity, Live.SFW_PROFANITY_LIST, replaceWord.
  cbn [fold_left].
  repeat (apply existsb_nonWhite_replaceFrom; [discriminate|]).
  exact H.
Qed.

(** What is recorded for a user turn is never blank. *)
Lemma truthy_trim_filterProfanity_trim s :
  truthy (trim s) = true ->
  truthy (trim (Live.filterProfanity (trim s))) = true.
Proof.
  intros H; rewrite truthy_trim in *.
  apply existsb_nonWhite_filterProfanity.
  rewrite existsb_nonWhite_trim; exact H.
Qed.

End Trimming.

(** Case analysis on the fields of the message and on every truthiness
    test of [updateTurn]. *)
Ltac updateTurn_cases message :=
  unfold Live.updateTurn;
  destruct (Live.field Live.groundingChunks message);
  destruct (Live.field Live.inputTranscription message);
  destruct (Live.field Live.outputTranscription message);
  destruct (Live.flag Live.turnComplete message);
  cbn [Live.isSome andb Live.user Live.model Live.modelSources fst snd];
  repeat match goal with
    | |- context [Js.truthy ?x] =>
        let H := fresh "H" in
        destruct (Js.truthy x) eqn:H;
        cbn [andb Live.user Live.model Live.modelSources fst snd]
    end;
  cbn [app fst snd].

Section TurnAggregator.

Import Js Live.

Lemma recordable_userEntry t :
  truthy (trim t) = true ->
  recordable (userEntry (filterProfanity (trim t))) = true.
Proof. apply truthy_trim_filterProfanity_trim. Qed.

Lemma recordable_modelEntry t src :
  truthy t = true -> recordable (modelEntry t src) = true.
Proof. intros H; exact H. Qed.

Lemma updateTurn_recordable message prevTurn :
  forallb recordable (snd (updateTurn message prevTurn)) = true.
Proof.
  updateTurn_cases message;
    cbn [forallb];
    rewrite ?recordable_userEntry, ?recordable_modelEntry by assumption;
    reflexivity.
Qed.

Lemma step_transcript e s :
  forallb recordable (transcript s) = true ->
  forallb recordable (transcript (step e s)) = true.
Proof.
  intros H; destruct e as [dt|m|r| | |n]; cbn [step].
  - unfold tick; destruct (ctxState s); exact H.
  - pose proof (updateTurn_recordable m (currentTurn s)) as Hu.
    unfold onmessage.
    destruct (updateTurn m (currentTurn s)) as [newTurn ups]; cbn [snd] in Hu.
    set (s1 := setText (transcript s ++ ups) newTurn s).
    assert (H1 : forallb recordable (transcript s1) = true).
    { subst s1; simpl; rewrite forallb_app, H, Hu; reflexivity. }
    assert (Hsched : forall data,
               transcript (fst (scheduleAudio data s1)) = transcript s1).
    { intros data; unfold scheduleAudio.
      destruct (Pcm.decodeAudioData data); reflexivity. }
    destruct (base64Audio m) as [[data|]|ex]; [| |exact H1].
    + specialize (Hsched data).
      destruct (scheduleAudio data s1) as [s2 [ex|]]; cbn [fst] in *;
        [rewrite Hsched; exact H1|].
      destruct (flag interrupted m); cbn [fst];
        [rewrite (proj1 (handleStopPlayback_text s2))|];
        rewrite Hsched; exact H1.
    + destruct (flag interrupted m); cbn [fst];
        [rewrite (proj1 (handleStopPlayback_text s1))|]; exact H1.
  - exact H.
  - unfold handlePauseResume; destruct (ctxState s); exact H.
  - rewrite (proj1 (handleStopPlayback_text s)); exact H.
  - exact H.
Qed.

(** C2, as the code has it.  Whatever the reactions of a session, every
    user turn in the transcript has non-empty trimmed text (blank pending
    user text is dropped) and every model turn has non-empty text; a
    model turn is not trimmed, so it may be blank. *)
Theorem C2_recorded_turns_are_not_empty (events : list Event) :
  forallb recordable (transcript (run events initial)) = true.
Proof.
  unfold run.
  assert (H : forallb recordable (transcript initial) = true) by reflexivity.
  revert H; generalize initial.
  induction events as [|e events IH]; intros s H; simpl; [exact H|].
  apply IH, step_transcript, H.
Qed.

(** C2 as stated fails for model turns: a blank fragment of output
    transcription followed by turn-complete records a model turn whose
    trimmed text is empty. *)
Lemma C2_counterexample :
  transcript (run [Message (partialOutput (lit " "));
                   Message turnCompleteEvent] initial)
    = [modelEntry (lit " ") []] /\
  trim (text (modelEntry (lit " ") [])) = [].
Proof. split; reflexivity. Qed.

End TurnAggregator.

(** ** The profanity filter, word by word *)

Section ProfanityFilter.

Import Js Live.

Local Open Scope N_scope.

(** Case analysis on every comparison of code units in sight. *)
Ltac code_units :=
  repeat match goal with
    | H : context [(?a <=? ?b)%N] |- _ => destruct (N.leb_spec a b); cbn [andb orb negb] in H
    | |- context [(?a <=? ?b)%N] => destruct (N.leb_spec a b); cbn [andb orb negb]
    | H : context [(?a =? ?b)%N] |- _ => destruct (N.eqb_spec a b); cbn [andb orb negb] in H
    | |- context [(?a =? ?b)%N] => destruct (N.eqb_spec a b); cbn [andb orb negb]
    end;
  try reflexivity; try discriminate; try lia.

(** Only a letter folds to the same code unit as a lower-case letter. *)
Lemma Canonicalize_lower_word p c :
  isLower p = true -> Canonicalize p = Canonicalize c -> isWordChar c = true.
Proof.
  unfold isLower, Canonicalize, isWordChar; intros Hp He.
  code_units.
Qed.

Lemma isWordChar_star : isWordChar star = false.
Proof. reflexivity. Qed.


Lemma equalsIgnoreCase_length a : forall b,
  equalsIgnoreCase a b = true -> List.length a = List.length b.
Proof.
  induction a as [|x a IH]; intros [|y b]; simpl; try discriminate; auto.
  intros H; apply andb_true_iff in H as [_ H]; f_equal; auto.
Qed.

Lemma hd_flatten segs :
  wellFormed segs -> headIsWord segs = false ->
  isWordCharOpt (hd_error (flatten segs)) = false.
Proof.
  destruct segs as [|[b r] rest]; simpl; [reflexivity|].
  intros (Hne & Hall & _ & _) ->.
  destruct r as [|c r]; [congruence|].
  inversion Hall; subst; assumption.
Qed.

(** The literal part of the pattern, tried at the start of a word run
    [r] that ends where [rest] begins. *)
Lemma matchLiteral_run w : forallb isLower w = true ->
  forall r prev rest,
    Forall (fun c => isWordChar c = true) r ->
    isWordCharOpt (hd_error rest) = false ->
    (w = [] -> isWordCharOpt prev = true) ->
    match matchLiteral w prev (r ++ rest) with
    | Some (last, rest') => wordBoundary last (hd_error rest')
    | None => false
    end = equalsIgnoreCase w r.
Proof.
  induction w as [|p w IH]; intros Hw r prev rest Hr Hrest Hprev.
  - cbn [matchLiteral]; unfold wordBoundary; rewrite Hprev by reflexivity.
    destruct r as [|c r]; simpl.
    + rewrite Hrest; reflexivity.
    + inversion Hr as [|? ? Hc _]; subst; rewrite Hc; reflexivity.
  - cbn [forallb] in Hw; apply andb_true_iff in Hw as [Hp Hw].
    destruct r as [|c r].
    + cbn [app matchLiteral equalsIgnoreCase].
      destruct rest as [|c rest]; [reflexivity|].
      destruct (N.eqb_spec (Canonicalize p) (Canonicalize c)) as [He|_];
        [|reflexivity].
      apply (Canonicalize_lower_word _ _ Hp) in He.
      simpl in Hrest; congruence.
    + inversion Hr as [|? ? Hc Hr']; subst.
      cbn [app matchLiteral equalsIgnoreCase].
      destruct (Canonicalize p =? Canonicalize c); [|reflexivity].
      cbn [andb]. apply IH; auto.
Qed.

Section OnePass.

Variable word : jsString.
Hypothesis word_lower : forallb isLower word = true.
Hypothesis word_nonempty : word <> [].

Lemma matchAt_nonword prev c s :
  isWordChar c = false -> matchAt word prev (c :: s) = false.
Proof.
  intros Hc; unfold matchAt.
  destruct word as [|p w]; [congruence|].
  cbn [forallb] in word_lower.
  apply andb_true_iff in word_lower as [Hp _].
  cbn [matchLiteral].
  destruct (N.eqb_spec (Canonicalize p) (Canonicalize c)) as [He|_];
    [|apply andb_false_r].
  apply (Canonicalize_lower_word _ _ Hp) in He; congruence.
Qed.

Lemma matchAt_inside prev c s :
  isWordCharOpt prev = true -> isWordChar c = true ->
  matchAt word prev (c :: s) = false.
Proof.
  intros Hp Hc; unfold matchAt, wordBoundary; simpl.
  rewrite Hp, Hc; reflexivity.
Qed.

Lemma matchAt_run prev r rest :
  r <> [] ->
  Forall (fun c => isWordChar c = true) r ->
  isWordCharOpt prev = false ->
  isWordCharOpt (hd_error rest) = false ->
  matchAt word prev (r ++ rest) = equalsIgnoreCase word r.
Proof.
  intros Hne Hr Hprev Hrest; unfold matchAt.
  rewrite matchLiteral_run by (auto; congruence).
  destruct r as [|c r]; [congruence|].
  inversion Hr as [|? ? Hc _]; subst.
  unfold wordBoundary; simpl; rewrite Hprev, Hc; reflexivity.
Qed.

(** Passing a run of non-word characters: nothing matches. *)
Lemma replaceFrom_separator r : forall prev rest,
  Forall (fun c => isWordChar c = false) r ->
  replaceFrom word prev 0 (r ++ rest)
  = r ++ replaceFrom word (lastOf r prev) 0 rest.
Proof.
  induction r as [|c r IH]; intros prev rest Hr; [reflexivity|].
  inversion Hr as [|? ? Hc Hr']; subst.
  cbn [app replaceFrom]; rewrite matchAt_nonword by exact Hc.
  rewrite IH by exact Hr'; reflexivity.
Qed.

(** Passing the rest of a word run once inside it: nothing matches. *)
Lemma replaceFrom_inside r : forall prev rest,
  Forall (fun c => isWordChar c = true) r ->
  isWordCharOpt prev = true ->
  replaceFrom word prev 0 (r ++ rest)
  = r ++ replaceFrom word (lastOf r prev) 0 rest.
Proof.
  induction r as [|c r IH]; intros prev rest Hr Hp; [reflexivity|].
  inversion Hr as [|? ? Hc Hr']; subst.
  cbn [app replaceFrom]; rewrite matchAt_inside by assumption.
  rewrite IH by assumption; reflexivity.
Qed.

(** Passing the code units of a match. *)
Lemma replaceFrom_skip r : forall prev rest,
  replaceFrom word prev (List.length r) (r ++ rest)
  = replaceFrom word (lastOf r prev) 0 rest.
Proof.
  induction r as [|c r IH]; intros prev rest; [reflexivity|].
  cbn [app List.length replaceFrom]; apply IH.
Qed.

Lemma lastOf_nonempty_word b r prev :
  r <> [] -> Forall (fun c => isWordChar c = b) r ->
  isWordCharOpt (lastOf r prev) = b.
Proof.
  revert prev; induction r as [|c r IH]; intros prev Hne Hr; [congruence|].
  pose proof (Forall_inv Hr) as Hc; pose proof (Forall_inv_tail Hr) as Hr'.
  destruct r as [|c' r]; [exact Hc|].
  apply IH; [discriminate|assumption].
Qed.

(** One pass over a text cut into runs censors exactly the word runs
    equal to the word up to case. *)
Lemma replaceFrom_flatten segs : forall prev,
  wellFormed segs ->
  (headIsWord segs = true -> isWordCharOpt prev = false) ->
  replaceFrom word prev 0 (flatten segs)
  = flatten (map (censorSeg word) segs).
Proof.
  induction segs as [|[b r] segs IH]; intros prev Hwf Hprev; [reflexivity|].
  destruct Hwf as (Hne & Hall & Hnext & Hwf).
  unfold flatten in *; cbn [map snd List.concat].
  destruct b; cbn [headIsWord] in Hprev.
  - specialize (Hnext eq_refl).
    pose proof (hd_flatten _ Hwf Hnext) as Hhd; unfold flatten in Hhd.
    assert (Hgo : forall p, replaceFrom word p 0 (List.concat (map snd segs))
                            = List.concat (map snd (map (censorSeg word) segs))).
    { intros p; apply IH; [exact Hwf|]. rewrite Hnext; discriminate. }
    unfold censorSeg at 1; cbn [fst snd andb].
    pose proof (@matchAt_run prev r _ Hne Hall (Hprev eq_refl) Hhd) as Hm.
    destruct r as [|c r]; [congruence|].
    cbn [app replaceFrom] in *; rewrite Hm.
    destruct (equalsIgnoreCase word (c :: r)) eqn:He; cbn [snd].
    + apply equalsIgnoreCase_length in He; rewrite He.
      cbn [List.length pred]; rewrite replaceFrom_skip, Hgo; reflexivity.
    + inversion Hall as [|? ? Hc Hr']; subst.
      rewrite replaceFrom_inside by (auto); rewrite Hgo; reflexivity.
  - unfold censorSeg at 1; cbn [fst snd andb].
    rewrite replaceFrom_separator by exact Hall.
    rewrite IH; [reflexivity|exact Hwf|].
    intros _; apply lastOf_nonempty_word; assumption.
Qed.

Lemma wellFormed_censorSeg segs :
  wellFormed segs -> wellFormed (map (censorSeg word) segs).
Proof.
  induction segs as [|[b r] segs IH]; [auto|].
  intros (Hne & Hall & Hnext & Hwf).
  assert (Hhead : headIsWord segs = false ->
                  headIsWord (map (censorSeg word) segs) = false).
  { destruct segs as [|[b' r'] segs']; simpl; [auto|].
    intros ->; reflexivity. }
  cbn [map]; unfold censorSeg at 1; cbn [fst snd].
  destruct (b && equalsIgnoreCase word r) eqn:Hb.
  - split; [|split; [|split]].
    + destruct r; [congruence|discriminate].
    + apply Forall_forall; intros c Hc.
      apply repeat_spec in Hc; subst; reflexivity.
    + discriminate.
    + apply IH; exact Hwf.
  - split; [exact Hne|split; [exact Hall|split]]; auto.
Qed.

Lemma replaceWord_flatten segs :
  wellFormed segs ->
  replaceWord word (flatten segs) = flatten (map (censorSeg word) segs).
Proof.
  intros Hwf; apply replaceFrom_flatten; [exact Hwf|reflexivity].
Qed.

End OnePass.


(** The maximal runs of a text are such a cut. *)
Lemma flatten_runs s : flatten (runs s) = s.
Proof.
  induction s as [|c s IH]; [reflexivity|].
  cbn [runs]; destruct (runs s) as [|[b r] more].
  - simpl in IH; subst; reflexivity.
  - destruct (Bool.eqb (isWordChar c) b); unfold flatten in *; simpl in *;
      rewrite IH; reflexivity.
Qed.

Lemma wellFormed_runs s : wellFormed (runs s).
Proof.
  induction s as [|c s IH]; [exact I|].
  cbn [runs]; destruct (runs s) as [|[b r] more].
  - split; [discriminate|]; split; [auto|]; split; [reflexivity|exact I].
  - destruct IH as (Hne & Hall & Hnext & Hwf).
    destruct (Bool.eqb (isWordChar c) b) eqn:Hb.
    + apply Bool.eqb_prop in Hb.
      split; [discriminate|]; split; [auto|]; split; assumption.
    + apply Bool.eqb_false_iff in Hb.
      split; [discriminate|]; split; [auto|]; split.
      * intros Hc; cbn [headIsWord]. destruct b; congruence.
      * split; [exact Hne|]; split; [exact Hall|]; split; assumption.
Qed.

Lemma filterProfanity_flatten segs :
  wellFormed segs ->
  filterProfanity (flatten segs) = flatten (map censorAll segs).
Proof.
  intros Hwf; unfold filterProfanity, censorAll, SFW_PROFANITY_LIST.
  cbn [fold_left].
  rewrite !replaceWord_flatten;
    try reflexivity; try discriminate;
    repeat (apply wellFormed_censorSeg; try reflexivity; try discriminate);
    try exact Hwf.
  rewrite !map_map; reflexivity.
Qed.

Lemma censorAll_censorRun seg : snd (censorAll seg) = censorRun seg.
Proof.
  destruct seg as [b r].
  unfold censorAll, censorRun, isProfanity, SFW_PROFANITY_LIST.
  cbn [fold_left existsb fst snd]; unfold censorSeg.
  destruct b; cbn [fst snd andb]; [|reflexivity].
  repeat match goal with
    | |- context [equalsIgnoreCase ?w r] =>
        destruct (equalsIgnoreCase w r); cbn [fst snd andb orb]
    end; reflexivity.
Qed.

(** The filter of the code is the filter of the specification. *)
Lemma filterProfanity_spec t : filterProfanity t = spec_filterProfanity t.
Proof.
  rewrite <- (flatten_runs t) at 1.
  rewrite filterProfanity_flatten by apply wellFormed_runs.
  unfold flatten, spec_filterProfanity; rewrite map_map.
  f_equal; apply map_ext; intros seg; apply censorAll_censorRun.
Qed.

End ProfanityFilter.

Section RecordedText.

Import Js Live.

(** C8.  The filter replaces every whole word of the text that is, up to
    case, darn, heck, gosh or shoot by as many asterisks, and changes
    nothing else.  Every user entry that [onmessage] appends to the
    transcript is the filtered, trimmed pending user text, and the pending
    user bubble is the filtered pending user text; every model entry is
    the accumulated model text as it is, and so is the model bubble. *)
Theorem C8_user_text_is_filtered_model_text_is_verbatim
        (t : jsString) (message : LiveServerMessage) (prevTurn : CurrentTurn) :
  filterProfanity t = spec_filterProfanity t /\
  Forall (fun e =>
            match speaker e with
            | user_speaker =>
                text e = spec_filterProfanity (trim (user prevTurn)) \/
                text e = spec_filterProfanity
                           (trim (userAfterInput message prevTurn))
            | model_speaker =>
                text e = model prevTurn ++ outputFragment message
            end)
         (snd (updateTurn message prevTurn)) /\
  pendingUserBubble prevTurn
    = (if truthy (user prevTurn)
       then Some (spec_filterProfanity (user prevTurn)) else None) /\
  pendingModelBubble prevTurn
    = (if truthy (model prevTurn) then Some (model prevTurn) else None).
Proof.
  split; [apply filterProfanity_spec|]; split;
    [|split; [|reflexivity]].
  - unfold userAfterInput, inputFragment, outputFragment.
    updateTurn_cases message;
      repeat (apply Forall_cons || apply Forall_nil);
      cbn [speaker text userEntry modelEntry isSome andb app];
      rewrite ?filterProfanity_spec, ?app_nil_r;
      first [reflexivity | left; reflexivity | right; reflexivity].
  - unfold pendingUserBubble; rewrite filterProfanity_spec; reflexivity.
Qed.

End RecordedText.

(** * Further properties of the code *)

(** ** PCM frames, both ways *)

Section PcmViews.

Import Pcm.

Local Open Scope Z_scope.

(** Induction over a byte buffer two bytes at a time. *)
Lemma pairs_ind (A : Type) (P : list A -> Prop) :
  P [] -> (forall x, P [x]) -> (forall x y l, P l -> P (x :: y :: l)) ->
  forall l, P l.
Proof.
  intros H0 H1 H2.
  fix IH 1; intros [|x [|y l]]; [exact H0|apply H1|apply H2, IH].
Qed.

Lemma byteToZ_range b : 0 <= byteToZ b < 256.
Proof.
  unfold byteToZ; pose proof (Byte.to_N_bounded b); lia.
Qed.

Lemma byteOfZ_byteToZ b : byteOfZ (byteToZ b) = b.
Proof.
  unfold byteOfZ.
  rewrite Z.mod_small by apply byteToZ_range.
  unfold byteToZ; rewrite N2Z.id, Byte.of_to_N; reflexivity.
Qed.

Lemma byteOfZ_mod z z' : z mod 256 = z' mod 256 -> byteOfZ z = byteOfZ z'.
Proof. unfold byteOfZ; intros ->; reflexivity. Qed.

Lemma int16OfBytes_range lo hi : -32768 <= int16OfBytes lo hi <= 32767.
Proof.
  unfold int16OfBytes.
  pose proof (byteToZ_range lo); pose proof (byteToZ_range hi).
  change (2 ^ 15) with 32768; change (2 ^ 16) with 65536.
  destruct (Z.geb_spec (byteToZ lo + 256 * byteToZ hi) 32768); lia.
Qed.

Lemma bytes_of_int16OfBytes lo hi :
  byteOfZ (int16OfBytes lo hi) = lo /\
  byteOfZ (Z.shiftr (int16OfBytes lo hi) 8) = hi.
Proof.
  pose proof (byteToZ_range lo) as Hlo; pose proof (byteToZ_range hi) as Hhi.
  rewrite <- (byteOfZ_byteToZ lo) at 2; rewrite <- (byteOfZ_byteToZ hi) at 3.
  rewrite Z.shiftr_div_pow2 by lia; change (2 ^ 8) with 256.
  split; apply byteOfZ_mod; unfold int16OfBytes;
    change (2 ^ 15) with 32768; change (2 ^ 16) with 65536;
    destruct (Z.geb_spec (byteToZ lo + 256 * byteToZ hi) 32768);
    Z.to_euclidean_division_equations; lia.
Qed.

(** What the [Int16Array] view gives: one element for every two bytes, or
    a RangeError exactly when the byte count is odd. *)
Lemma Int16Array_outcome data :
  match Int16Array data with
  | Returned dataInt16 =>
      List.length data = (2 * List.length dataInt16)%nat /\
      Forall (fun z => -32768 <= z <= 32767) dataInt16 /\
      int16Bytes dataInt16 = data
  | Threw RangeError => Nat.odd (List.length data) = true
  | Threw _ => False
  end.
Proof.
  induction data as [| x | lo hi data IH] using pairs_ind.
  - simpl; auto.
  - reflexivity.
  - cbn [Int16Array].
    destruct (Int16Array data) as [zs|[| |]]; try contradiction.
    + destruct IH as (Hlen & Hall & Hbytes).
      split; [cbn [List.length]; lia|].
      split; [constructor; [apply int16OfBytes_range|exact Hall]|].
      cbn [int16Bytes].
      destruct (bytes_of_int16OfBytes lo hi) as [-> ->].
      rewrite Hbytes; reflexivity.
    + cbn [List.length]. rewrite Nat.odd_succ, Nat.even_succ; exact IH.
Qed.


Lemma int16OfBytes_wrap16 z :
  int16OfBytes (byteOfZ z) (byteOfZ (Z.shiftr z 8)) = wrap16 z.
Proof.
  unfold int16OfBytes, wrap16.
  rewrite !byteToZ_byteOfZ, Z.shiftr_div_pow2 by lia.
  change (2 ^ 8) with 256; change (2 ^ 15) with 32768; change (2 ^ 16) with 65536.
  assert (H : z mod 256 + 256 * (z / 256 mod 256) = z mod 65536)
    by (Z.to_euclidean_division_equations; lia).
  rewrite H; reflexivity.
Qed.

(** The two typed-array views over one buffer are inverse to each other:
    the bytes of an [Int16Array] read back as the elements reduced to 16
    bits, and the elements of an even-sized byte buffer written back as the
    same bytes. *)
Theorem int16_views_round_trip (int16 : list Z) (data : list byte) :
  Int16Array (int16Bytes int16) = Returned (map wrap16 int16) /\
  match Int16Array data with
  | Returned dataInt16 =>
      int16Bytes dataInt16 = data /\
      List.length data = (2 * List.length dataInt16)%nat
  | Threw RangeError => Nat.odd (List.length data) = true
  | Threw _ => False
  end.
Proof.
  split.
  - induction int16 as [|z zs IH]; [reflexivity|].
    cbn [int16Bytes Int16Array map]; rewrite IH, int16OfBytes_wrap16; reflexivity.
  - pose proof (Int16Array_outcome data) as H.
    destruct (Int16Array data) as [zs|[| |]]; try contradiction; [|exact H].
    destruct H as (H1 & _ & H3); auto.
Qed.

Lemma int16_sample_range z :
  -32768 <= z <= 32767 ->
  (-1 <= inject_Z z / 32768 /\ inject_Z z / 32768 < 1)%Q.
Proof.
  intros Hz.
  assert (He : (inject_Z z / 32768 == inject_Z z * (1 # 32768))%Q) by reflexivity.
  assert (H1 : (inject_Z (-32768) <= inject_Z z)%Q) by (rewrite <- Zle_Qle; lia).
  assert (H2 : (inject_Z z <= inject_Z 32767)%Q) by (rewrite <- Zle_Qle; lia).
  change (inject_Z (-32768)) with (-32768)%Q in H1.
  change (inject_Z 32767) with 32767%Q in H2.
  rewrite He; split; lra.
Qed.

(** [decodeAudioData] on any byte buffer: an odd byte count throws a
    RangeError, an empty buffer a NotSupportedError; otherwise the buffer
    has one frame for every two bytes, at 24000 Hz, and every sample lies
    in [-1, 1). *)
Theorem decodeAudioData_outcome (data : list byte) :
  match decodeAudioData data with
  | Returned audioBuffer =>
      data <> [] /\
      List.length data = (2 * Pcm.length audioBuffer)%nat /\
      sampleRate audioBuffer = 24000 /\
      List.length (channelData audioBuffer) = Pcm.length audioBuffer /\
      Forall (fun y => -1 <= y /\ y < 1)%Q (channelData audioBuffer)
  | Threw RangeError => Nat.odd (List.length data) = true
  | Threw NotSupportedError => data = []
  | Threw TypeError => False
  end.
Proof.
  unfold decodeAudioData.
  pose proof (Int16Array_outcome data) as H.
  destruct (Int16Array data) as [zs|[| |]]; try contradiction; [|exact H].
  destruct H as (Hlen & Hall & _).
  destruct zs as [|z zs]; cbn [List.length] in *.
  - destruct data; [reflexivity|discriminate].
  - cbn [Pcm.length sampleRate channelData].
    split; [destruct data; [discriminate|congruence]|].
    split; [exact Hlen|]. split; [reflexivity|].
    split; [rewrite length_map; reflexivity|].
    apply Forall_map.
    eapply Forall_impl; [|exact Hall].
    intros a Ha; apply int16_sample_range; exact Ha.
Qed.

Lemma truncate_inject_Z z : truncate (inject_Z z / 32768 * 32768)%Q = z.
Proof.
  unfold truncate; simpl.
  rewrite Z.mul_1_r. apply Z.quot_mul; discriminate.
Qed.

(** Decoding then encoding is exact: a 16-bit sample divided by 32768 is
    encoded back as itself. *)
Lemma encodeSample_decoded z :
  -32768 <= z <= 32767 -> encodeSample (Finite (inject_Z z / 32768)) = z.
Proof.
  intros Hz; unfold encodeSample, times32768, ToInt16.
  rewrite truncate_inject_Z. apply wrap_int16; exact Hz.
Qed.

(** A decoded buffer re-encodes to the very bytes it was decoded from. *)
Theorem decode_then_encode_is_identity (data : list byte) (audioBuffer : AudioBuffer) :
  decodeAudioData data = Returned audioBuffer ->
  frameBytes (map Finite (channelData audioBuffer)) = data.
Proof.
  unfold decodeAudioData.
  pose proof (Int16Array_outcome data) as H.
  destruct (Int16Array data) as [zs|e]; [|discriminate].
  destruct H as (_ & Hall & Hbytes).
  destruct (List.length zs); [discriminate|].
  intros [= <-]; cbn [channelData].
  unfold frameBytes, encodeFrame; rewrite !map_map.
  rewrite <- Hbytes; f_equal.
  rewrite <- (map_id zs) at 2.
  apply map_ext_in; intros z Hz.
  apply encodeSample_decoded.
  rewrite Forall_forall in Hall; apply Hall; exact Hz.
Qed.

Lemma decode_then_encode_witness :
  frameBytes (map Finite [inject_Z 513 / 32768; inject_Z (-2) / 32768]%Q)
  = [x01; x02; xfe; xff].
Proof.
  apply (@decode_then_encode_is_identity [x01; x02; xfe; xff]
           (mkAudioBuffer 2 24000 [inject_Z 513 / 32768; inject_Z (-2) / 32768]%Q)).
  reflexivity.
Defined.

Lemma encodeSample_range x : -32768 <= encodeSample x <= 32767.
Proof.
  destruct x as [q| | |]; [|vm_compute; split; discriminate..].
  unfold encodeSample, times32768, ToInt16.
  exact (proj1 (wrap_range (truncate (q * 32768)%Q))).
Qed.

(** Whatever the samples (out of range, infinite or NaN included), the
    frame the encoder builds is two bytes a sample and decodes without an
    exception, unless the block is empty, to the encoded samples over
    32768. *)
Theorem encoded_frame_always_decodes (inputData : list float) :
  List.length (frameBytes inputData) = (2 * List.length inputData)%nat /\
  decodeAudioData (frameBytes inputData) =
    match inputData with
    | [] => Threw NotSupportedError
    | _ =>
        Returned (mkAudioBuffer (List.length inputData) 24000
                    (map (fun x => inject_Z (encodeSample x) / 32768)%Q inputData))
    end.
Proof.
  assert (Hrange : Forall (fun z => -32768 <= z <= 32767) (encodeFrame inputData)).
  { unfold encodeFrame; apply Forall_map, Forall_forall.
    intros x _; apply encodeSample_range. }
  split.
  - unfold frameBytes, encodeFrame.
    induction inputData as [|x l IH]; [reflexivity|].
    cbn [map int16Bytes List.length] in *.
    rewrite IH by (inversion Hrange; assumption); lia.
  - unfold decodeAudioData, frameBytes.
    rewrite (Int16Array_int16Bytes Hrange).
    unfold encodeFrame; rewrite length_map, map_map.
    destruct inputData; reflexivity.
Qed.

(** In range the encoder is odd: a sample and its opposite are encoded as
    opposite integers (the integral part is taken towards zero on both
    sides). *)
Theorem encodeSample_opposite (q : Q) :
  (-1 < q)%Q -> (q < 1)%Q ->
  encodeSample (Finite (- q)) = - encodeSample (Finite q).
Proof.
  intros H1 H2.
  assert (Ha : (-1 <= q)%Q) by lra.
  assert (Hb : (-1 <= - q)%Q) by lra.
  assert (Hc : (- q < 1)%Q) by lra.
  destruct (encodeSample_in_range Ha H2) as [-> _].
  destruct (encodeSample_in_range Hb Hc) as [-> _].
  unfold truncate; destruct q as [n d]; simpl.
  rewrite Z.mul_opp_l; apply Z.quot_opp_l; discriminate.
Qed.

Lemma encodeSample_opposite_witness :
  encodeSample (Finite (- (3 # 131072))) = - encodeSample (Finite (3 # 131072)).
Proof.
  apply encodeSample_opposite; reflexivity.
Defined.

Lemma Qlt_inject_Z_succ n m : (inject_Z n < inject_Z m + 1)%Q -> n <= m.
Proof.
  intros H.
  change 1%Q with (inject_Z 1) in H; rewrite <- inject_Z_plus in H.
  rewrite <- Zlt_Qlt in H; lia.
Qed.

Lemma integralPart_monotone (t1 t2 : Q) n1 n2 :
  (t1 <= t2)%Q -> integralPart t1 n1 -> integralPart t2 n2 -> n1 <= n2.
Proof.
  intros Hle [[H1 [H2 H3]]|[H1 [H2 H3]]] [[H4 [H5 H6]]|[H4 [H5 H6]]].
  - apply Qlt_inject_Z_succ; lra.
  - apply Qlt_inject_Z_succ; lra.
  - assert (Ha : n1 <= 0).
    { apply Qlt_inject_Z_succ; change (inject_Z 0) with 0%Q; lra. }
    assert (Hb : 0 <= n2).
    { apply Qlt_inject_Z_succ; change (inject_Z 0) with 0%Q; lra. }
    lia.
  - apply Qlt_inject_Z_succ; lra.
Qed.

(** In range the encoder preserves order: a larger sample is never encoded
    as a smaller integer. *)
Theorem encodeSample_monotone (q1 q2 : Q) :
  (-1 <= q1)%Q -> (q1 <= q2)%Q -> (q2 < 1)%Q ->
  encodeSample (Finite q1) <= encodeSample (Finite q2).
Proof.
  intros H1 H12 H2.
  assert (Ha : (q1 < 1)%Q) by lra.
  assert (Hb : (-1 <= q2)%Q) by lra.
  destruct (encodeSample_in_range H1 Ha) as [-> _].
  destruct (encodeSample_in_range Hb H2) as [-> _].
  eapply integralPart_monotone; [|apply truncate_integralPart..].
  lra.
Qed.

Lemma encodeSample_monotone_witness :
  encodeSample (Finite (-1)) <= encodeSample (Finite (1 # 3)).
Proof.
  apply encodeSample_monotone; first [reflexivity | vm_compute; discriminate].
Defined.

End PcmViews.

(** ** What the profanity filter does to a text *)

Section FilteredText.

Import Js Live.

Lemma filterProfanity_runs t :
  filterProfanity t = flatten (map censorAll (runs t)).
Proof.
  rewrite <- (flatten_runs t) at 1.
  apply filterProfanity_flatten, wellFormed_runs.
Qed.

Lemma wellFormed_censorAll segs :
  wellFormed segs -> wellFormed (map censorAll segs).
Proof.
  intros Hwf.
  assert (He : map censorAll segs
               = map (censorSeg (lit "shoot"))
                   (map (censorSeg (lit "gosh"))
                      (map (censorSeg (lit "heck"))
                         (map (censorSeg (lit "darn")) segs)))).
  { rewrite !map_map; apply map_ext; intros seg; reflexivity. }
  rewrite He.
  do 4 apply wellFormed_censorSeg; exact Hwf.
Qed.

Lemma censorAll_idempotent seg : censorAll (censorAll seg) = censorAll seg.
Proof.
  destruct seg as [b r].
  unfold censorAll, SFW_PROFANITY_LIST; cbn [fold_left]; unfold censorSeg.
  destruct b; cbn [fst snd andb]; [|reflexivity].
  destruct (equalsIgnoreCase (lit "darn") r) eqn:Hd; cbn [fst snd andb];
    [reflexivity|].
  destruct (equalsIgnoreCase (lit "heck") r) eqn:Hh; cbn [fst snd andb];
    [reflexivity|].
  destruct (equalsIgnoreCase (lit "gosh") r) eqn:Hg; cbn [fst snd andb];
    [reflexivity|].
  destruct (equalsIgnoreCase (lit "shoot") r) eqn:Hs; cbn [fst snd andb];
    [reflexivity|].
  rewrite Hd; cbn [fst snd andb]; rewrite Hh; cbn [fst snd andb];
    rewrite Hg; cbn [fst snd andb]; rewrite Hs; reflexivity.
Qed.

Lemma filterProfanity_twice (t : jsString) :
  filterProfanity (filterProfanity t) = filterProfanity t.
Proof.
  rewrite (filterProfanity_runs t).
  rewrite filterProfanity_flatten by apply wellFormed_censorAll, wellFormed_runs.
  rewrite map_map; unfold flatten; do 2 f_equal.
  apply map_ext; intros seg; apply censorAll_idempotent.
Qed.

(** Filtering a filtered text changes nothing more. *)
Theorem filterProfanity_idempotent (t : jsString) :
  filterProfanity (filterProfanity t) = filterProfanity t.
Proof. apply filterProfanity_twice. Qed.

Lemma wellFormed_homogeneous segs :
  wellFormed segs ->
  Forall (fun seg => snd seg <> [] /\
                     Forall (fun c => isWordChar c = fst seg) (snd seg)) segs.
Proof.
  induction segs as [|[b r] segs IH]; [constructor|].
  intros (Hne & Hall & _ & Hwf); constructor; [split; assumption|auto].
Qed.

Lemma censorRun_pointwise seg :
  Forall (fun c => isWordChar c = fst seg) (snd seg) ->
  Forall2 keptOrStarred (snd seg) (censorRun seg).
Proof.
  destruct seg as [b r]; unfold censorRun; cbn [fst snd]; intros Hall.
  destruct (b && isProfanity r) eqn:Hb.
  - apply andb_true_iff in Hb as [-> _].
    induction Hall as [|c r Hc _ IH]; simpl; constructor; auto.
    right; split; [reflexivity|exact Hc].
  - clear; induction r; constructor; auto. left; reflexivity.
Qed.

(** The filter keeps the length of the text, and every code unit either
    stays as it is or is a word character turned into an asterisk: white
    space, punctuation and the position of every character are kept. *)
Theorem filterProfanity_pointwise (t : jsString) :
  List.length (filterProfanity t) = List.length t /\
  Forall2 keptOrStarred t (filterProfanity t).
Proof.
  assert (H : Forall2 keptOrStarred t (filterProfanity t)).
  { rewrite filterProfanity_spec; unfold spec_filterProfanity.
    rewrite <- (flatten_runs t) at 1; unfold flatten.
    pose proof (wellFormed_homogeneous _ (wellFormed_runs t)) as Hh.
    induction Hh as [|seg segs [_ Hseg] _ IH]; simpl; [constructor|].
    apply Forall2_app; [apply censorRun_pointwise; exact Hseg|exact IH]. }
  split; [symmetry; eapply Forall2_length; exact H|exact H].
Qed.

Lemma app_eq_same_length (B : Type) (a c b d : list B) :
  List.length a = List.length c -> a ++ b = c ++ d -> a = c /\ b = d.
Proof.
  revert c; induction a as [|x a IH]; intros [|y c] Hlen H;
    try discriminate; [auto|].
  injection H as -> H; injection Hlen as Hlen.
  destruct (IH c Hlen H) as [-> ->]; auto.
Qed.

Lemma concat_map_eq_pointwise (A B : Type) (f g : A -> list B) l :
  (forall x, List.length (f x) = List.length (g x)) ->
  List.concat (map f l) = List.concat (map g l) ->
  Forall (fun x => f x = g x) l.
Proof.
  intros Hlen; induction l as [|x l IH]; simpl; intros H; [constructor|].
  apply app_eq_same_length in H; [|apply Hlen].
  destruct H as [H1 H2]; constructor; auto.
Qed.

Lemma censorRun_length seg : List.length (censorRun seg) = List.length (snd seg).
Proof.
  unfold censorRun; destruct (fst seg && isProfanity (snd seg));
    [apply repeat_length|reflexivity].
Qed.

(** No listed word is left: in the filtered text no whole word is, up to
    case, darn, heck, gosh or shoot. *)
Theorem filterProfanity_leaves_no_profanity (t : jsString) :
  Forall (fun run => fst run && isProfanity (snd run) = false)
         (runs (filterProfanity t)).
Proof.
  pose proof (filterProfanity_twice t) as Hid.
  set (out := filterProfanity t) in *.
  rewrite filterProfanity_spec in Hid; unfold spec_filterProfanity in Hid.
  rewrite <- (flatten_runs out) in Hid at 2; unfold flatten in Hid.
  apply concat_map_eq_pointwise in Hid; [|apply censorRun_length].
  pose proof (wellFormed_homogeneous _ (wellFormed_runs out)) as Hh.
  rewrite Forall_forall in *; intros [b r] Hin.
  specialize (Hid _ Hin); specialize (Hh _ Hin); cbn [fst snd] in *.
  destruct Hh as [Hne Hall].
  unfold censorRun in Hid; cbn [fst snd] in Hid.
  destruct (b && isProfanity r) eqn:Hb; [|reflexivity].
  apply andb_true_iff in Hb as [-> _].
  destruct r as [|c r]; [congruence|].
  cbn [List.length repeat] in Hid; injection Hid as Hc _.
  rewrite Forall_forall in Hall; specialize (Hall c (or_introl eq_refl)).
  rewrite <- Hc in Hall; discriminate.
Qed.

End FilteredText.

(** ** The text of a session *)

Section SessionText.

Import Js Live.

Lemma scheduleAudio_text data s :
  currentTurn (fst (scheduleAudio data s)) = currentTurn s /\
  transcript (fst (scheduleAudio data s)) = transcript s.
Proof.
  unfold scheduleAudio; destruct (Pcm.decodeAudioData data); simpl; auto.
Qed.

Lemma onmessage_text message s :
  (currentTurn (fst (onmessage message s)), transcript (fst (onmessage message s)))
  = textAfter (currentTurn s, transcript s) message.
Proof.
  unfold onmessage, textAfter; cbn [fst snd].
  destruct (updateTurn message (currentTurn s)) as [newTurn ups]; cbn [fst snd].
  set (s1 := setText (transcript s ++ ups) newTurn s).
  change (newTurn, transcript s ++ ups) with (currentTurn s1, transcript s1).
  destruct (base64Audio message) as [[data|]|e]; [| |reflexivity].
  - destruct (scheduleAudio_text data s1) as [H1 H2].
    destruct (scheduleAudio data s1) as [s2 [e|]]; cbn [fst] in *;
      [rewrite H1, H2; reflexivity|].
    destruct (flag interrupted message); cbn [fst];
      [destruct (handleStopPlayback_text s2) as [-> ->]|];
      rewrite H1, H2; reflexivity.
  - destruct (flag interrupted message); cbn [fst];
      [destruct (handleStopPlayback_text s1) as [-> ->]|]; reflexivity.
Qed.

Lemma step_text e s :
  (currentTurn (step e s), transcript (step e s))
  = match e with
    | Message m => textAfter (currentTurn s, transcript s) m
    | _ => (currentTurn s, transcript s)
    end.
Proof.
  destruct e as [dt|m|r| | |n]; cbn [step].
  - unfold tick; destruct (ctxState s); reflexivity.
  - apply onmessage_text.
  - reflexivity.
  - unfold handlePauseResume; destruct (ctxState s); reflexivity.
  - destruct (handleStopPlayback_text s) as [-> ->]; reflexivity.
  - reflexivity.
Qed.

Lemma run_text (events : list Event) (s : State) :
  (currentTurn (run events s), transcript (run events s))
  = feed (messagesOf events) (currentTurn s, transcript s).
Proof.
  unfold run, feed; revert s.
  induction events as [|e events IH]; intros s; [reflexivity|].
  cbn [fold_left]; rewrite IH, step_text.
  destruct e; reflexivity.
Qed.

(** The pending turn and the transcript depend on the messages alone, in
    their order: clock, slider, pause, stop and ended reactions, an audio
    part that fails to decode, and the interrupted flag change nothing of
    them. *)
Theorem text_depends_on_messages_only (events : list Event) (s : State) :
  (currentTurn (run events s), transcript (run events s))
  = feed (messagesOf events) (currentTurn s, transcript s).
Proof. apply run_text. Qed.

(** The transcript is append-only: whatever happens in a session, what was
    recorded stays, in place, at the head of the transcript. *)
Theorem transcript_is_append_only (events : list Event) (s : State) :
  exists added, transcript (run events s) = transcript s ++ added.
Proof.
  unfold run; revert s.
  induction events as [|e events IH]; intros s.
  - exists []; rewrite app_nil_r; reflexivity.
  - cbn [fold_left]; destruct (IH (step e s)) as [added ->].
    pose proof (step_text e s) as H.
    assert (Hs : exists ups, transcript (step e s) = transcript s ++ ups).
    { apply (f_equal snd) in H; cbn [snd] in H; rewrite H.
      destruct e; try (exists []; rewrite app_nil_r; reflexivity).
      unfold textAfter; cbn [snd]; eauto. }
    destruct Hs as [ups ->]; rewrite <- app_assoc; eauto.
Qed.

Lemma updateTurn_model message t :
  flag turnComplete message = false ->
  model (fst (updateTurn message t)) = model t ++ outputFragment message /\
  modelSources (fst (updateTurn message t)) = modelSources t ++ chunksOf message.
Proof.
  intros Hc; unfold outputFragment, chunksOf, updateTurn; rewrite Hc.
  destruct (field groundingChunks message);
    destruct (field inputTranscription message);
    destruct (field outputTranscription message);
    cbn [isSome andb user model modelSources fst snd];
    try destruct (truthy (user t));
    cbn [isSome andb user model modelSources fst snd];
    rewrite ?app_nil_r; auto.
Qed.

Lemma feed_model messages : forall st,
  forallb (fun m => negb (flag turnComplete m)) messages = true ->
  model (fst (feed messages st))
    = model (fst st) ++ List.concat (map outputFragment messages) /\
  modelSources (fst (feed messages st))
    = modelSources (fst st) ++ List.concat (map chunksOf messages).
Proof.
  unfold feed; induction messages as [|m messages IH]; intros st Hall.
  - simpl; rewrite !app_nil_r; auto.
  - cbn [forallb] in Hall; apply andb_true_iff in Hall as [Hm Hall].
    apply negb_true_iff in Hm.
    cbn [fold_left map List.concat].
    destruct (IH (textAfter st m) Hall) as [-> ->].
    unfold textAfter; cbn [fst].
    destruct (updateTurn_model m (fst st) Hm) as [-> ->].
    rewrite <- !app_assoc; auto.
Qed.

(** Until a turn completes, the pending model text is the concatenation,
    in arrival order, of the output fragments received, and the pending
    sources that of the grounding chunks received: nothing is dropped,
    reordered or deduplicated, whatever else the messages carry and
    whatever the other reactions in between. *)
Theorem model_text_accumulates_in_order (events : list Event) (s : State) :
  forallb (fun m => negb (flag turnComplete m)) (messagesOf events) = true ->
  model (currentTurn (run events s))
    = model (currentTurn s)
        ++ List.concat (map outputFragment (messagesOf events)) /\
  modelSources (currentTurn (run events s))
    = modelSources (currentTurn s)
        ++ List.concat (map chunksOf (messagesOf events)).
Proof.
  intros Hall.
  pose proof (run_text events s) as H.
  apply (f_equal fst) in H; cbn [fst] in H; rewrite H.
  apply (feed_model (messagesOf events) (currentTurn s, transcript s) Hall).
Qed.

Lemma model_text_accumulates_witness :
  let events := [Message (partialInput (lit "hi"));
                 Message (partialOutput (lit "hel"));
                 Tick 1; PauseResume;
                 Message (partialOutput (lit "lo"))] in
  model (currentTurn (run events initial))
    = model (currentTurn initial)
        ++ List.concat (map outputFragment (messagesOf events)) /\
  modelSources (currentTurn (run events initial))
    = modelSources (currentTurn initial)
        ++ List.concat (map chunksOf (messagesOf events)).
Proof.
  apply model_text_accumulates_in_order; reflexivity.
Defined.

Lemma messagesOf_messages l : messagesOf (map Message l) = l.
Proof.
  unfold messagesOf; induction l as [|m l IH]; simpl; congruence.
Qed.

Lemma trim_nil_of_not_truthy u : truthy u = false -> userPart u = [].
Proof. destruct u; [reflexivity|discriminate]. Qed.

Lemma feed_inputs ins : forall u m src T,
  feed (map partialInput ins) (mkTurn u m src, T)
  = (mkTurn (u ++ List.concat ins) m src, T).
Proof.
  unfold feed; induction ins as [|t ins IH]; intros u m src T.
  - simpl; rewrite app_nil_r; reflexivity.
  - cbn [map fold_left List.concat].
    replace (textAfter (mkTurn u m src, T) (partialInput t))
      with (mkTurn (u ++ t) m src, T)
      by (unfold textAfter; cbn; rewrite app_nil_r; reflexivity).
    rewrite IH, <- app_assoc; reflexivity.
Qed.

Lemma textAfter_output t u m src T :
  textAfter (mkTurn u m src, T) (partialOutput t)
  = (mkTurn [] (m ++ t) src, T ++ userPart u).
Proof.
  unfold textAfter, userPart.
  destruct u as [|c u]; [cbn; rewrite app_nil_r; reflexivity|].
  unfold updateTurn; cbn [field flag partialOutput serverContent
                          inputTranscription outputTranscription turnComplete
                          groundingChunks isSome andb truthy user model
                          modelSources fst snd toStringOpt].
  destruct (truthy (trim (c :: u))); reflexivity.
Qed.

Lemma feed_outputs outs : forall u m src T,
  feed (map partialOutput outs) (mkTurn u m src, T)
  = (mkTurn (match outs with [] => u | _ => [] end)
            (m ++ List.concat outs) src,
     T ++ match outs with [] => [] | _ => userPart u end).
Proof.
  unfold feed; induction outs as [|t outs IH]; intros u m src T.
  - simpl; rewrite !app_nil_r; reflexivity.
  - cbn [map fold_left List.concat].
    rewrite textAfter_output, IH, <- !app_assoc.
    destruct outs; cbn [userPart app]; rewrite ?app_nil_r; reflexivity.
Qed.

Lemma textAfter_turnComplete u m src T :
  textAfter (mkTurn u m src, T) turnCompleteEvent
  = (mkTurn [] [] [], T ++ userPart u ++ modelPart m src).
Proof.
  unfold textAfter, userPart, modelPart, updateTurn.
  cbn [field flag turnCompleteEvent serverContent
       inputTranscription outputTranscription turnComplete
       groundingChunks isSome andb user model modelSources fst snd].
  destruct (truthy (trim u)); destruct (truthy m); reflexivity.
Qed.

(** One conversational turn.  Input fragments, then output fragments, then
    turn-complete, whatever the pending turn was before: the user text is
    everything pending plus the input fragments in order, recorded once,
    trimmed and filtered, unless blank; the model text is everything
    pending plus the output fragments in order, recorded after it with the
    pending sources, unless empty; and the pending turn is empty again. *)
Theorem one_turn_is_recorded_in_order
        (ins outs : list jsString) (s : State) :
  let events := map Message (map partialInput ins
                             ++ map partialOutput outs
                             ++ [turnCompleteEvent]) in
  transcript (run events s)
    = transcript s
        ++ userPart (user (currentTurn s) ++ List.concat ins)
        ++ modelPart (model (currentTurn s) ++ List.concat outs)
                     (modelSources (currentTurn s)) /\
  currentTurn (run events s) = mkTurn [] [] [].
Proof.
  intros events.
  pose proof (run_text events s) as H.
  subst events; rewrite messagesOf_messages in H.
  unfold feed in H; rewrite !fold_left_app in H.
  fold (feed (map partialInput ins) (currentTurn s, transcript s)) in H.
  destruct (currentTurn s) as [u m src] eqn:Ht; cbn [user model modelSources].
  rewrite feed_inputs in H.
  fold (feed (map partialOutput outs) (mkTurn (u ++ List.concat ins) m src, transcript s)) in H.
  rewrite feed_outputs in H; cbn [fold_left] in H.
  rewrite textAfter_turnComplete in H.
  injection H as H1 H2; split; [|exact H1].
  rewrite H2, <- !app_assoc; f_equal.
  destruct outs; cbn [app]; [reflexivity|].
  rewrite (trim_nil_of_not_truthy []) by reflexivity; reflexivity.
Qed.

End SessionText.

(** ** Pause, resume and the playback rate *)

Section PauseAndRate.

Import Live.

Local Open Scope Q_scope.

Lemma handleStopPlayback_pauseFlag s :
  pauseFlagMatches s = true -> pauseFlagMatches (handleStopPlayback s) = true.
Proof.
  unfold pauseFlagMatches, handleStopPlayback; simpl.
  destruct (ctxState s), (isPaused s); simpl; auto.
Qed.

Lemma step_pauseFlag e s :
  pauseFlagMatches s = true -> pauseFlagMatches (step e s) = true.
Proof.
  intros H; destruct e as [dt|m|r| | |n]; cbn [step].
  - destruct s as [tr t r p c now srcs next st sp].
    unfold tick, pauseFlagMatches in *; simpl in *.
    destruct c; try exact H.
  - unfold onmessage.
    destruct (updateTurn m (currentTurn s)) as [newTurn ups].
    set (s1 := setText (transcript s ++ ups) newTurn s).
    assert (H1 : pauseFlagMatches s1 = true) by exact H.
    assert (Hsched : forall data,
               pauseFlagMatches (fst (scheduleAudio data s1)) = true).
    { intros data; unfold scheduleAudio.
      destruct (Pcm.decodeAudioData data); exact H1. }
    destruct (base64Audio m) as [[data|]|ex]; [| |exact H1].
    + specialize (Hsched data).
      destruct (scheduleAudio data s1) as [s2 [ex|]]; cbn [fst] in *;
        [exact Hsched|].
      destruct (flag interrupted m); cbn [fst];
        [apply handleStopPlayback_pauseFlag|]; exact Hsched.
    + destruct (flag interrupted m); cbn [fst];
        [apply handleStopPlayback_pauseFlag|]; exact H1.
  - exact H.
  - unfold handlePauseResume, pauseFlagMatches in *.
    destruct (ctxState s), (isPaused s); try discriminate; reflexivity.
  - apply handleStopPlayback_pauseFlag; exact H.
  - exact H.
Qed.

(** Throughout a session the paused flag, which labels the Pause/Resume
    button, tells whether the output context is suspended, and the output
    context is never closed. *)
Theorem paused_flag_follows_the_context (events : list Event) :
  pauseFlagMatches (run events initial) = true.
Proof.
  unfold run.
  assert (H : pauseFlagMatches initial = true) by reflexivity.
  revert H; generalize initial.
  induction events as [|e events IH]; intros s H; simpl; [exact H|].
  apply IH, step_pauseFlag, H.
Qed.

(** Pausing and resuming (or resuming and pausing) gives back the state
    one started from: nothing of the schedule, the rate or the text is
    touched. *)
Theorem pause_then_resume_is_identity (s : State) :
  pauseFlagMatches s = true ->
  handlePauseResume (handlePauseResume s) = s.
Proof.
  destruct s as [tr t r p c now srcs next st sp].
  unfold pauseFlagMatches, handlePauseResume; simpl.
  destruct c, p; simpl; intros H; try discriminate; reflexivity.
Qed.

Lemma pause_then_resume_witness :
  handlePauseResume (handlePauseResume playing) = playing.
Proof.
  apply pause_then_resume_is_identity; reflexivity.
Defined.

Lemma decodeAudioData_duration_pos data buf :
  Pcm.decodeAudioData data = Returned buf -> 0 < Pcm.duration buf.
Proof.
  unfold Pcm.decodeAudioData.
  destruct (Pcm.Int16Array data) as [zs|e]; [|discriminate].
  destruct (List.length zs) eqn:Hn; [discriminate|].
  intros [= <-]; unfold Pcm.duration; simpl Pcm.length; simpl Pcm.sampleRate.
  apply Qlt_shift_div_l; [reflexivity|].
  rewrite Qmult_0_l.
  change 0 with (inject_Z 0); rewrite <- Zlt_Qlt; lia.
Qed.

Lemma Qdiv_lt_rates (d r1 r2 : Q) :
  0 < d -> 0 < r2 -> r2 < r1 -> d / r1 < d / r2.
Proof.
  intros Hd H2 H12.
  assert (H1 : 0 < r1) by lra.
  unfold Qdiv.
  apply Qmult_lt_l; [exact Hd|].
  apply -> Qinv_lt_contravar; assumption.
Qed.

(** A change of rate is not retroactive.  When a chunk has been scheduled
    and the rate is then lowered before it plays, the cursor stays where
    the old rate put it: the next chunk, arriving back to back, is started
    before the first one, now slower, has ended. *)
Theorem rate_change_does_not_reschedule
        (s : State) (data1 data2 : list byte) (r : Q)
        (buffer1 buffer2 : Pcm.AudioBuffer) :
  Pcm.decodeAudioData data1 = Returned buffer1 ->
  Pcm.decodeAudioData data2 = Returned buffer2 ->
  0 < r -> r < playbackRateRef s ->
  let s' := run [Message (audioChunk data1);
                 SetPlaybackRate r;
                 Message (audioChunk data2)] s in
  exists older first second,
    sourcesRef s' = older ++ [first; second] /\
    buffer first = buffer1 /\ rate first = r /\
    buffer second = buffer2 /\
    when first <= when second /\
    when second < endTime first.
Proof.
  intros Hd1 Hd2 Hr Hlt s'.
  subst s'; unfold run; cbn [fold_left step].
  unfold onmessage, audioChunk; cbn.
  unfold scheduleAudio; rewrite Hd1; cbn.
  unfold scheduleAudio; rewrite Hd2; cbn.
  rewrite map_app; cbn [map node buffer when].
  eexists _, _, _; split.
  { rewrite <- app_assoc; cbn [app]; reflexivity. }
  cbn [buffer rate when]; unfold endTime; cbn [buffer rate when].
  repeat (split; [reflexivity|]).
  pose proof (decodeAudioData_duration_pos _ Hd1) as Hpos.
  set (w := Qmax (nextStartTimeRef s) (currentTime s)).
  assert (Hs : 0 < playbackRateRef s) by lra.
  assert (Hq : 0 < Pcm.duration buffer1 / playbackRateRef s).
  { apply Qlt_shift_div_l; [exact Hs|]. rewrite Qmult_0_l; exact Hpos. }
  pose proof (Qdiv_lt_rates Hpos Hr Hlt) as Hrates.
  pose proof (Q.le_max_r (nextStartTimeRef s) (currentTime s)) as Hnow.
  fold w in Hnow.
  assert (Hmax : Qmax (w + Pcm.duration buffer1 / playbackRateRef s) (currentTime s)
                 == w + Pcm.duration buffer1 / playbackRateRef s).
  { apply Q.max_l; lra. }
  split; [rewrite Hmax; lra|].
  rewrite Hmax; lra.
Qed.

Lemma rate_change_witness :
  let s' := run [Message (audioChunk [x00; x01]);
                 SetPlaybackRate (1 # 2);
                 Message (audioChunk [x02; x03])] initial in
  exists older first second,
    sourcesRef s' = older ++ [first; second] /\
    buffer first = Pcm.mkAudioBuffer 1 24000 [inject_Z 256 / 32768] /\
    rate first = 1 # 2 /\
    buffer second = Pcm.mkAudioBuffer 1 24000 [inject_Z 770 / 32768] /\
    when first <= when second /\
    when second < endTime first.
Proof.
  apply (@rate_change_does_not_reschedule initial [x00; x01] [x02; x03] (1 # 2));
    reflexivity.
Defined.

End PauseAndRate.

(** ** The retry loop in closed form *)

Section RetryLoop.

Import Service.

Local Open Scope nat_scope.

Variables (T : Type) (outcomes : nat -> Outcome T) (initialDelay : Q).

Lemma lastAttempt_bounds bound : forall from,
  from <= lastAttempt outcomes from bound <= from + bound.
Proof.
  induction bound as [|bound IH]; intros from; simpl; [lia|].
  destruct (settles (outcomes from)); [lia|].
  specialize (IH (S from)); lia.
Qed.

Lemma lastAttempt_spec bound : forall from,
  forallb (fun j => negb (settles (outcomes (from + j))))
          (seq 0 (lastAttempt outcomes from bound - from)) = true /\
  (lastAttempt outcomes from bound =? from + bound)
    || settles (outcomes (lastAttempt outcomes from bound)) = true.
Proof.
  induction bound as [|bound IH]; intros from; cbn [lastAttempt].
  - rewrite Nat.sub_diag, Nat.add_0_r, Nat.eqb_refl; auto.
  - destruct (settles (outcomes from)) eqn:Hs.
    + rewrite Nat.sub_diag, Hs, orb_true_r; auto.
    + destruct (IH (S from)) as [H1 H2].
      pose proof (lastAttempt_bounds bound (S from)) as Hb.
      split.
      * rewrite forallb_forall in *; intros j Hj; apply in_seq in Hj.
        destruct j as [|j]; [rewrite Nat.add_0_r, Hs; reflexivity|].
        replace (from + S j) with (S from + j) by lia.
        apply H1, in_seq; lia.
      * rewrite <- Nat.add_succ_comm; exact H2.
Qed.

Lemma delaysFrom_S env retries n :
  delaysFrom initialDelay env retries (S n)
  = backoff initialDelay (S retries) (randomValues env (randomCalls env))
    :: delaysFrom initialDelay
         (mkEnv (randomValues env) (S (randomCalls env))
                (timeouts env
                   ++ [backoff initialDelay (S retries)
                               (randomValues env (randomCalls env))]))
         (S retries) n.
Proof.
  unfold delaysFrom; cbn [seq map randomValues randomCalls].
  rewrite !Nat.add_0_r; f_equal.
  rewrite <- seq_shift, map_map.
  apply map_ext; intros i.
  rewrite !Nat.add_succ_r; reflexivity.
Qed.

(** The loop on a scripted call, from any point of it. *)
Lemma retryLoop_scripted remaining : forall retries from env,
  retryLoop (scripted outcomes) initialDelay remaining retries from env
  = let k := lastAttempt outcomes from remaining in
    (outcomes k, S k,
     mkEnv (randomValues env) (randomCalls env + (k - from))
           (timeouts env ++ delaysFrom initialDelay env retries (k - from))).
Proof.
  induction remaining as [|remaining IH]; intros retries from env; cbv zeta.
  - cbn [lastAttempt]; rewrite Nat.sub_diag, Nat.add_0_r.
    unfold delaysFrom; cbn [seq map]; rewrite app_nil_r.
    destruct env as [rv rc ts]; cbn [randomValues randomCalls timeouts].
    destruct (outcomes from) as [v|e] eqn:Ho.
    + erewrite retryLoop_resolved by (unfold scripted; rewrite Ho; reflexivity).
      reflexivity.
    + erewrite retryLoop_exhausted by (unfold scripted; rewrite Ho; reflexivity).
      reflexivity.
  - cbn [lastAttempt].
    destruct (outcomes from) as [v|e] eqn:Ho; cbn [settles].
    + erewrite retryLoop_resolved by (unfold scripted; rewrite Ho; reflexivity).
      rewrite Nat.sub_diag, Nat.add_0_r, Ho.
      unfold delaysFrom; cbn [seq map]; rewrite app_nil_r.
      destruct env; reflexivity.
    + destruct (isRetryable e) eqn:Hr; cbn [negb].
      * erewrite retryLoop_retry
          by (first [unfold scripted; rewrite Ho; reflexivity | exact Hr]).
        rewrite IH; cbv zeta.
        pose proof (lastAttempt_bounds remaining (S from)) as Hb.
        set (k := lastAttempt outcomes (S from) remaining) in *.
        replace (k - from) with (S (k - S from)) by lia.
        rewrite delaysFrom_S; cbn [randomValues randomCalls timeouts].
        rewrite <- app_assoc; cbn [app].
        replace (S (randomCalls env) + (k - S from))
          with (randomCalls env + S (k - S from)) by lia.
        reflexivity.
      * erewrite retryLoop_not_retryable
          by (first [unfold scripted; rewrite Ho; reflexivity | exact Hr]).
        rewrite Nat.sub_diag, Nat.add_0_r, Ho.
        unfold delaysFrom; cbn [seq map]; rewrite app_nil_r.
        destruct env; reflexivity.
Qed.

(** [withRetry] on a call whose successive outcomes are given.  It stops
    at the first attempt [k] that succeeds or fails with an error not
    classified as retryable, or at attempt [maxRetries] if there is none
    before; it returns or throws what that attempt gave, has made [k + 1]
    attempts, and has slept [k] times, the i-th time for
    [initialDelay * 2^(i-1)] ms plus the jitter drawn then. *)
Theorem withRetry_in_closed_form (maxRetries : nat) (env : Env) :
  exists k,
    k <= maxRetries /\
    forallb (fun j => negb (settles (outcomes j))) (seq 0 k) = true /\
    (k =? maxRetries) || settles (outcomes k) = true /\
    withRetry (scripted outcomes) maxRetries initialDelay 0 env
    = (outcomes k, S k,
       mkEnv (randomValues env) (randomCalls env + k)
             (timeouts env
                ++ map (fun i => backoff initialDelay (S i)
                                         (randomValues env (randomCalls env + i)))
                       (seq 0 k))).
Proof.
  exists (lastAttempt outcomes 0 maxRetries).
  pose proof (lastAttempt_bounds maxRetries 0) as Hb.
  destruct (lastAttempt_spec maxRetries 0) as [H1 H2].
  rewrite Nat.sub_0_r in H1; cbn [Nat.add] in *.
  split; [lia|]. split; [exact H1|]. split; [exact H2|].
  unfold withRetry; rewrite retryLoop_scripted; cbv zeta.
  rewrite Nat.sub_0_r; reflexivity.
Qed.

End RetryLoop.

(** ** How long [withRetry] waits *)

Section RetryWait.

Import Service.

Local Open Scope Q_scope.

Variables (W T : Type) (apiCall : W -> Outcome T * W) (initialDelay : Q).

Lemma pow2_S n : pow2 (S n) == 2 * pow2 n.
Proof.
  unfold pow2; rewrite Nat2Z.inj_succ, Z.pow_succ_r by lia.
  rewrite inject_Z_mult; reflexivity.
Qed.

Lemma pow2_pos n : 1 <= pow2 n.
Proof.
  induction n as [|n IH]; [vm_compute; discriminate|].
  rewrite pow2_S; lra.
Qed.

Lemma pow2_monotone n m : (n <= m)%nat -> pow2 n <= pow2 m.
Proof.
  induction 1 as [|m _ IH]; [lra|].
  rewrite pow2_S; pose proof (pow2_pos m); lra.
Qed.

Lemma Qnat_S n : Qnat (S n) == Qnat n + 1.
Proof.
  unfold Qnat; rewrite Nat2Z.inj_succ, <- Z.add_1_r, inject_Z_plus; reflexivity.
Qed.

Lemma backoff_pow2 retries random :
  backoff initialDelay (S retries) random
  = initialDelay * pow2 retries + random * 1000.
Proof.
  unfold backoff, pow2; cbn [Nat.sub]; rewrite Nat.sub_0_r; reflexivity.
Qed.

Lemma geometric_0 retries : geometric initialDelay retries 0 == 0.
Proof. unfold geometric, pow2; simpl; ring. Qed.

Lemma geometric_S retries n :
  geometric initialDelay retries (S n)
  == initialDelay * pow2 retries + geometric initialDelay (S retries) n.
Proof. unfold geometric; rewrite !pow2_S; ring. Qed.

Lemma no_delay retries :
  geometric initialDelay retries 0 <= total [] /\
  total [] <= geometric initialDelay retries 0 + 1000 * Qnat 0.
Proof.
  assert (H : Qnat 0 == 0) by reflexivity.
  rewrite geometric_0, H; cbn [total fold_right]; split; lra.
Qed.

Lemma retryLoop_wait remaining : forall retries w env,
  (forall k, 0 <= randomValues env k /\ randomValues env k < 1) ->
  exists delays,
    timeouts (snd (retryLoop apiCall initialDelay remaining retries w env))
      = timeouts env ++ delays /\
    (List.length delays <= remaining)%nat /\
    geometric initialDelay retries (List.length delays) <= total delays /\
    total delays
      <= geometric initialDelay retries (List.length delays)
         + 1000 * Qnat (List.length delays).
Proof.
  induction remaining as [|remaining IH]; intros retries w env Hrv.
  - exists []; cbn [List.length].
    rewrite app_nil_r.
    split; [|split; [lia|apply no_delay]].
    destruct (apiCall w) as [[v|e] w'] eqn:Hcall.
    + rewrite (retryLoop_resolved _ _ _ _ _ _ Hcall); reflexivity.
    + rewrite (retryLoop_exhausted _ _ _ _ _ Hcall); reflexivity.
  - destruct (apiCall w) as [[v|e] w'] eqn:Hcall;
      [|destruct (isRetryable e) eqn:Hr].
    + rewrite (retryLoop_resolved _ _ _ _ _ _ Hcall).
      exists []; cbn [List.length snd].
      rewrite app_nil_r.
      split; [reflexivity|split; [lia|apply no_delay]].
    + rewrite (retryLoop_retry _ _ _ _ _ _ Hcall Hr).
      set (delay := backoff initialDelay (S retries)
                            (randomValues env (randomCalls env))).
      destruct (IH (S retries) w'
                   (mkEnv (randomValues env) (S (randomCalls env))
                          (timeouts env ++ [delay])) Hrv)
        as (delays & Ht & Hlen & Hlo & Hhi).
      exists (delay :: delays).
      cbn [timeouts] in Ht; rewrite Ht, <- app_assoc.
      cbn [List.length total fold_right app].
      fold (total delays).
      rewrite geometric_S, Qnat_S.
      subst delay; rewrite backoff_pow2.
      destruct (Hrv (randomCalls env)) as [H0 H1].
      split; [reflexivity|split; [lia|split; lra]].
    + rewrite (retryLoop_not_retryable _ _ _ _ _ _ Hcall Hr).
      exists []; cbn [List.length snd].
      rewrite app_nil_r.
      split; [reflexivity|split; [lia|apply no_delay]].
Qed.

(** Whatever the API call does, [withRetry] sets at most [maxRetries]
    timeouts, and with a jitter in [0, 1) the time it waits in all is at
    least [initialDelay * (2^n - 1)] for [n] timeouts and at most
    [initialDelay * (2^maxRetries - 1) + 1000 * maxRetries] ms: 17 seconds
    with the default bound 3 and delay 2000. *)
Theorem withRetry_total_wait (maxRetries : nat) (w : W) (env : Env) :
  (forall k, 0 <= randomValues env k /\ randomValues env k < 1) ->
  0 <= initialDelay ->
  exists delays,
    timeouts (snd (withRetry apiCall maxRetries initialDelay w env))
      = timeouts env ++ delays /\
    (List.length delays <= maxRetries)%nat /\
    initialDelay * (pow2 (List.length delays) - 1) <= total delays /\
    total delays
      <= initialDelay * (pow2 maxRetries - 1) + 1000 * Qnat maxRetries.
Proof.
  intros Hrv Hd.
  destruct (retryLoop_wait maxRetries 0 w env Hrv)
    as (delays & Ht & Hlen & Hlo & Hhi).
  exists delays; split; [exact Ht|]; split; [exact Hlen|].
  unfold geometric in *.
  assert (H1 : pow2 0 == 1) by reflexivity.
  rewrite H1, Qmult_1_r in Hlo, Hhi.
  split; [exact Hlo|].
  pose proof (pow2_monotone Hlen) as Hp.
  assert (Hn : Qnat (List.length delays) <= Qnat maxRetries).
  { unfold Qnat; rewrite <- Zle_Qle; lia. }
  assert (Hm : initialDelay * (pow2 (List.length delays) - 1)
               <= initialDelay * (pow2 maxRetries - 1)).
  { rewrite !(Qmult_comm initialDelay).
    apply Qmult_le_compat_r; lra. }
  lra.
Qed.

End RetryWait.

Lemma withRetry_total_wait_witness :
  exists delays,
    Service.timeouts
      (snd (Service.withRetry
              (Service.scripted (fun _ => Service.Rejected (T := nat) "Error: 429"%string))
              3 2000 0%nat (Service.mkEnv (fun _ => 1 # 2) 0 [])))
      = [] ++ delays /\
    (List.length delays <= 3)%nat /\
    (2000 * (Service.pow2 (List.length delays) - 1) <= Service.total delays)%Q /\
    (Service.total delays
      <= 2000 * (Service.pow2 3 - 1) + 1000 * Service.Qnat 3)%Q.
Proof.
  apply (@withRetry_total_wait nat nat
           (Service.scripted (fun _ => Service.Rejected "Error: 429"%string))
           2000 3 0%nat (Service.mkEnv (fun _ => 1 # 2) 0 [])).
  - intros k; split; [vm_compute; discriminate|reflexivity].
  - vm_compute; discriminate.
Defined.

(** ** What [withRetry] hands back, and the calls built on it *)

Section RetryOutcome.

Import Service.

Variables (W T : Type) (apiCall : W -> Outcome T * W) (initialDelay : Q).

Lemma retryLoop_last_attempt remaining : forall retries w env,
  exists w0,
    apiCall w0
    = fst (retryLoop apiCall initialDelay remaining retries w env).
Proof.
  induction remaining as [|remaining IH]; intros retries w env.
  - exists w; destruct (apiCall w) as [[v|e] w'] eqn:Hcall.
    + rewrite (retryLoop_resolved _ _ _ _ _ _ Hcall); reflexivity.
    + rewrite (retryLoop_exhausted _ _ _ _ _ Hcall); reflexivity.
  - destruct (apiCall w) as [[v|e] w'] eqn:Hcall;
      [|destruct (isRetryable e) eqn:Hr].
    + exists w; rewrite (retryLoop_resolved _ _ _ _ _ _ Hcall); exact Hcall.
    + rewrite (retryLoop_retry _ _ _ _ _ _ Hcall Hr); apply IH.
    + exists w; rewrite (retryLoop_not_retryable _ _ _ _ _ _ Hcall Hr);
        exact Hcall.
Qed.

(** [withRetry] makes up no result of its own: the value it resolves to
    or the error it throws, and the state it leaves, are those of one
    attempt of the API call. *)
Theorem withRetry_hands_back_an_attempt (maxRetries : nat) (w : W) (env : Env) :
  exists w0,
    apiCall w0 = fst (withRetry apiCall maxRetries initialDelay w env).
Proof. apply retryLoop_last_attempt. Qed.

End RetryOutcome.

Section MediaCalls.

Import Service.

Local Open Scope string_scope.

Variable responses : nat -> Outcome GenerateContentResponse.

Lemma firstImage_none ps :
  Forall hasNoInlineData ps -> firstImage ps = None.
Proof.
  induction 1 as [|p ps Hp _ IH]; [reflexivity|].
  cbn [firstImage]; rewrite Hp; exact IH.
Qed.

Lemma firstImage_first before part after d :
  Forall hasNoInlineData before ->
  inlineData part = Some d ->
  firstImage (before ++ part :: after)%list
  = Some ("data:" ++ template (mimeType d) ++ ";base64," ++ template (data d)).
Proof.
  intros Hb Hd; induction Hb as [|p ps Hp _ IH]; cbn [app firstImage].
  - rewrite Hd; reflexivity.
  - rewrite Hp; exact IH.
Qed.

(** [editImage] returns the data URL of the first part of the first
    candidate that carries inline data, whatever comes before or after
    it, after one request. *)
Theorem editImage_returns_first_image
        (k : nat) (env : Env) (response : GenerateContentResponse)
        (before after : list ContentPart) (part : ContentPart) (d : InlineData) :
  responses k = Resolved response ->
  partsOf response = Resolved (before ++ part :: after)%list ->
  Forall hasNoInlineData before ->
  inlineData part = Some d ->
  editImage responses k env
  = (Resolved ("data:" ++ template (mimeType d) ++ ";base64," ++ template (data d)),
     S k, env).
Proof.
  intros Hr Hp Hb Hd; unfold editImage, withRetry.
  apply retryLoop_resolved.
  unfold editImageCall; rewrite Hr, Hp, (firstImage_first _ _ Hb Hd).
  reflexivity.
Qed.

(** When no part of the answer carries inline data, [editImage] throws
    its own error after that one request: the error is not classified as
    retryable, so there is no second request and no timeout. *)
Theorem editImage_without_image_is_not_retried
        (k : nat) (env : Env) (response : GenerateContentResponse)
        (ps : list ContentPart) :
  responses k = Resolved response ->
  partsOf response = Resolved ps ->
  Forall hasNoInlineData ps ->
  editImage responses k env = (Rejected noImage, S k, env).
Proof.
  intros Hr Hp Hps; unfold editImage, withRetry.
  apply retryLoop_not_retryable; [|reflexivity].
  unfold editImageCall; rewrite Hr, Hp, (firstImage_none Hps); reflexivity.
Qed.

(** [generateSpeech] reads the first part only: when that part has no
    inline data the call throws after one request, whatever the later
    parts and the other candidates hold. *)
Theorem generateSpeech_reads_first_part_only
        (k : nat) (env : Env) (part : ContentPart)
        (rest : list ContentPart) (others : list Candidate) :
  responses k = Resolved (responseWith (part :: rest) others) ->
  hasNoInlineData part ->
  generateSpeech responses k env = (Rejected noAudio, S k, env).
Proof.
  intros Hr Hp; unfold generateSpeech, withRetry.
  apply retryLoop_not_retryable; [|reflexivity].
  unfold generateSpeechCall; rewrite Hr.
  unfold firstAudio, responseWith;
    cbn [candidates content parts]; rewrite Hp; reflexivity.
Qed.

(** A value [generateSpeech] resolves to is never the empty string, and
    is the inline data of the first part of some answer. *)
Theorem generateSpeech_result_is_not_empty
        (k k' : nat) (env env' : Env) (base64Audio : string) :
  generateSpeech responses k env = (Resolved base64Audio, k', env') ->
  base64Audio <> "" /\
  exists j response,
    responses j = Resolved response /\ firstAudio response = Some base64Audio.
Proof.
  intros H.
  destruct (retryLoop_last_attempt (generateSpeechCall responses)
              defaultInitialDelay defaultMaxRetries 0 k env) as [j Hj].
  unfold generateSpeech, withRetry in H; rewrite H in Hj; cbn [fst] in Hj.
  unfold generateSpeechCall in Hj.
  apply (f_equal fst) in Hj; cbn [fst] in Hj.
  destruct (responses j) as [response|e] eqn:Hr; [|discriminate].
  destruct (firstAudio response) as [s|] eqn:Hs; [|discriminate].
  destruct (String.eqb s "") eqn:He; [discriminate|].
  injection Hj as ->.
  split; [apply String.eqb_neq; exact He|].
  exists j, response; split; [exact Hr|exact Hs].
Qed.

End MediaCalls.

Lemma editImage_returns_first_image_witness :
  Service.editImage
    (fun _ => Service.Resolved
       (Service.responseWith
          [Service.mkContentPart None (Some "done"%string);
           Service.mkContentPart
             (Some (Service.mkInlineData (Some "QUJD"%string) (Some "image/png"%string)))
             None] []))
    0%nat (Service.mkEnv (fun _ => 0%Q) 0%nat [])
  = (Service.Resolved "data:image/png;base64,QUJD"%string, 1%nat,
     Service.mkEnv (fun _ => 0%Q) 0 []).
Proof.
  eapply (@editImage_returns_first_image _ 0%nat _ _
           [Service.mkContentPart None (Some "done"%string)] []
           (Service.mkContentPart
              (Some (Service.mkInlineData (Some "QUJD"%string) (Some "image/png"%string)))
              None)
           (Service.mkInlineData (Some "QUJD"%string) (Some "image/png"%string))).
  - reflexivity.
  - reflexivity.
  - apply Forall_cons; [reflexivity|apply Forall_nil].
  - reflexivity.
Defined.

Lemma editImage_without_image_witness :
  Service.editImage
    (fun _ => Service.Resolved
       (Service.responseWith
          [Service.mkContentPart None (Some "I cannot edit this image."%string)] []))
    0%nat (Service.mkEnv (fun _ => 0%Q) 0%nat [])
  = (Service.Rejected Service.noImage, 1%nat, Service.mkEnv (fun _ => 0%Q) 0 []).
Proof.
  eapply (@editImage_without_image_is_not_retried _ 0%nat _ _
           [Service.mkContentPart None (Some "I cannot edit this image."%string)]).
  - reflexivity.
  - reflexivity.
  - apply Forall_cons; [reflexivity|apply Forall_nil].
Defined.

Lemma generateSpeech_first_part_witness :
  Service.generateSpeech
    (fun _ => Service.Resolved
       (Service.responseWith
          [Service.mkContentPart None (Some "Here is the audio."%string);
           Service.mkContentPart
             (Some (Service.mkInlineData (Some "AAAA"%string) (Some "audio/pcm"%string)))
             None] []))
    0%nat (Service.mkEnv (fun _ => 0%Q) 0%nat [])
  = (Service.Rejected Service.noAudio, 1%nat, Service.mkEnv (fun _ => 0%Q) 0 []).
Proof.
  apply (@generateSpeech_reads_first_part_only _ 0%nat _
           (Service.mkContentPart None (Some "Here is the audio."%string))
           [Service.mkContentPart
              (Some (Service.mkInlineData (Some "AAAA"%string) (Some "audio/pcm"%string)))
              None] []).
  - reflexivity.
  - reflexivity.
Defined.

Lemma generateSpeech_result_witness :
  "AAAA"%string <> ""%string /\
  exists j response,
    (fun _ : nat => Service.Resolved
       (Service.responseWith
          [Service.mkContentPart
             (Some (Service.mkInlineData (Some "AAAA"%string) (Some "audio/pcm"%string)))
             None] [])) j
    = Service.Resolved response /\
    Service.firstAudio response = Some "AAAA"%string.
Proof.
  apply (@generateSpeech_result_is_not_empty
           (fun _ => Service.Resolved
              (Service.responseWith
                 [Service.mkContentPart
                    (Some (Service.mkInlineData (Some "AAAA"%string) (Some "audio/pcm"%string)))
                    None] []))
           0%nat 1%nat (Service.mkEnv (fun _ => 0%Q) 0%nat [])
           (Service.mkEnv (fun _ => 0%Q) 0%nat []) "AAAA"%string).
  reflexivity.
Defined.

(** ** The chat bot component *)

Section ChatBotComponent.

Import Js ChatBot.

Local Open Scope nat_scope.

Lemma replaceLast_snoc ms m m' : replaceLast (ms ++ [m]) m' = ms ++ [m'].
Proof.
  induction ms as [|x ms IH]; [reflexivity|].
  cbn [app replaceLast]; rewrite IH.
  destruct ms; reflexivity.
Qed.

Lemma lastRole_snoc ms m : lastRole (ms ++ [m]) = Some (role m).
Proof. unfold lastRole; rewrite rev_app_distr; reflexivity. Qed.

Lemma lastRole_replaceLast ms m :
  lastRole ms <> None -> lastRole (replaceLast ms m) = Some (role m).
Proof.
  destruct ms as [|x ms _] using rev_ind; [intros H; contradiction H; reflexivity|].
  intros _; rewrite replaceLast_snoc; apply lastRole_snoc.
Qed.

(** The loop of lines 44-59 over a whole stream. *)
Lemma run_chunks chunks : forall ms m input error useGrounding response srcs starts sends,
  run (map Chunk chunks)
      (mkState (ms ++ [m]) input true error useGrounding response srcs starts sends)
  = mkState (ms ++ [match chunks with
                    | [] => m
                    | _ => mkMessage model (response ++ streamedText chunks)
                                     (Some (srcs ++ streamedSources chunks))
                    end])
            input true error useGrounding
            (response ++ streamedText chunks) (srcs ++ streamedSources chunks)
            starts sends.
Proof.
  induction chunks as [|c chunks IH]; intros.
  - unfold streamedText, streamedSources; cbn [map List.concat run fold_left].
    rewrite !app_nil_r; reflexivity.
  - cbn [map run fold_left step isLoading].
    unfold onChunk; cbn [messages input isLoading error useGrounding
                         modelResponse streamSources startChatCalls sendCalls].
    rewrite replaceLast_snoc.
    fold (run (map Chunk chunks)).
    assert (Hs : match match groundingChunks c with Some l => l | None => [] end with
                 | [] => srcs
                 | _ :: _ => srcs ++ match groundingChunks c with Some l => l | None => [] end
                 end
                 = srcs ++ match groundingChunks c with Some l => l | None => [] end).
    { destruct (groundingChunks c) as [[|g l]|]; rewrite ?app_nil_r; reflexivity. }
    rewrite Hs, IH.
    unfold streamedText, streamedSources; cbn [map List.concat].
    rewrite !app_assoc.
    destruct chunks; [|reflexivity].
    cbn [map List.concat]; rewrite !app_nil_r; reflexivity.
Qed.

(** A message sent from an idle component with a non-blank input is
    appended as typed, untrimmed, and once the stream has ended the
    answer after it is the concatenation of the chunks' texts, with the
    chunks' sources in order; the input is cleared, and the message went
    to the service as typed. *)
Theorem handleSend_streams_the_answer (s : State) (chunks : list StreamChunk) :
  isLoading s = false ->
  notBlank (input s) ->
  let s' := run (Send :: map Chunk chunks ++ [StreamEnd]) s in
  messages s'
    = messages s ++ [mkMessage user (input s) None;
                     mkMessage model (streamedText chunks)
                               (Some (streamedSources chunks))] /\
  input s' = [] /\ isLoading s' = false /\ error s' = None /\
  sendCalls s' = sendCalls s ++ [input s].
Proof.
  intros Hl Hb s'; subst s'.
  unfold run; cbn [fold_left step]; unfold handleSend.
  unfold notBlank in Hb; rewrite Hb, Hl; cbn [negb orb].
  rewrite fold_left_app; fold (run (map Chunk chunks)).
  change (messages s ++ [mkMessage user (input s) None; mkMessage model [] (Some [])])
    with (messages s ++ [mkMessage user (input s) None] ++ [mkMessage model [] (Some [])]).
  rewrite app_assoc, run_chunks.
  cbn [fold_left step isLoading onStreamEnd messages input error sendCalls app].
  rewrite <- app_assoc; cbn [app].
  destruct chunks; repeat split; reflexivity.
Qed.

(** When the request or the stream fails, the answer is dropped with
    whatever text had been streamed into it, the user's message stays,
    and the error line is set. *)
Theorem handleSend_failure_drops_the_answer (s : State) (chunks : list StreamChunk) :
  isLoading s = false ->
  notBlank (input s) ->
  let s' := run (Send :: map Chunk chunks ++ [StreamError]) s in
  messages s' = messages s ++ [mkMessage user (input s) None] /\
  isLoading s' = false /\ error s' = Some somethingWentWrong.
Proof.
  intros Hl Hb s'; subst s'.
  unfold run; cbn [fold_left step]; unfold handleSend.
  unfold notBlank in Hb; rewrite Hb, Hl; cbn [negb orb].
  rewrite fold_left_app; fold (run (map Chunk chunks)).
  change (messages s ++ [mkMessage user (input s) None; mkMessage model [] (Some [])])
    with (messages s ++ [mkMessage user (input s) None] ++ [mkMessage model [] (Some [])]).
  rewrite app_assoc, run_chunks.
  cbn [fold_left step isLoading onStreamError messages error].
  rewrite removelast_last.
  repeat split; reflexivity.
Qed.

Lemma step_lastRole s e :
  (if isLoading s then lastRole (messages s) = Some model else True) ->
  if isLoading (step s e) then lastRole (messages (step s e)) = Some model
  else True.
Proof.
  intros H; destruct e; cbn [step].
  - exact H.
  - unfold handleSend.
    destruct (negb (truthy (trim (input s))) || isLoading s); [exact H|].
    cbn [isLoading messages].
    change (messages s ++ [mkMessage user (input s) None; mkMessage model [] (Some [])])
      with (messages s ++ [mkMessage user (input s) None] ++ [mkMessage model [] (Some [])]).
    rewrite app_assoc; apply lastRole_snoc.
  - unfold toggleGrounding, initializeChat; cbn [isLoading messages].
    destruct (isLoading s); [reflexivity|exact I].
  - destruct (isLoading s) eqn:Hl; [|rewrite Hl; exact I].
    unfold onChunk; cbn [isLoading messages]; rewrite Hl.
    apply lastRole_replaceLast; rewrite H; discriminate.
  - destruct (isLoading s) eqn:Hl; [exact I|rewrite Hl; exact I].
  - destruct (isLoading s) eqn:Hl; [exact I|rewrite Hl; exact I].
Qed.

(** Whatever happens to the mounted component, while a request is in
    flight the list of messages ends with a model message: the one the
    chunks are streamed into. *)
Theorem loading_ends_with_a_model_message (events : list Event) :
  let s := run events initial in
  if isLoading s then lastRole (messages s) = Some model else True.
Proof.
  cbn zeta; unfold run.
  assert (H0 : if isLoading initial then lastRole (messages initial) = Some model
               else True) by exact I.
  revert H0; generalize initial.
  induction events as [|e events IH]; intros s H; [exact H|].
  cbn [fold_left]; apply IH, step_lastRole, H.
Qed.

Lemma step_sendCalls s e :
  Forall notBlank (sendCalls s) -> Forall notBlank (sendCalls (step s e)).
Proof.
  intros H; destruct e; cbn [step];
    try (destruct (isLoading s); exact H); try exact H.
  unfold handleSend.
  destruct (truthy (trim (input s))) eqn:Hb; cbn [negb orb]; [|exact H].
  destruct (isLoading s); [exact H|].
  cbn [sendCalls]; apply Forall_app; split; [exact H|].
  apply Forall_cons; [exact Hb|apply Forall_nil].
Qed.

Lemma run_sendCalls events : forall s n,
  Forall notBlank (sendCalls s) ->
  List.length (sendCalls s) + (if isLoading s then 0 else 1) <= 1 + n ->
  Forall notBlank (sendCalls (run events s)) /\
  List.length (sendCalls (run events s))
  + (if isLoading (run events s) then 0 else 1)
  <= 1 + (n + List.length (filter endsStream events)).
Proof.
  induction events as [|e events IH]; intros s n H1 H2.
  - cbn [run fold_left filter List.length]; split; [exact H1|lia].
  - cbn [run fold_left filter]; fold (run events (step s e)).
    destruct (@IH (step s e) (n + if endsStream e then 1 else 0))
      as [H3 H4].
    + apply step_sendCalls, H1.
    + destruct e; cbn [step endsStream];
        unfold handleSend, toggleGrounding, initializeChat,
          setInput, onChunk, onStreamEnd, onStreamError;
        destruct (isLoading s) eqn:Hl;
        try destruct (truthy (trim (input s)));
        cbn [negb orb sendCalls isLoading]; rewrite ?Hl;
        rewrite ?length_app; cbn [List.length]; lia.
    + split; [exact H3|].
      destruct (endsStream e); cbn [List.length]; lia.
Qed.

(** The component never sends the service a message that is empty or
    white space only, and never sends one while another is in flight:
    the requests made are at most one more than the streams that have
    ended or failed. *)
Theorem sends_are_not_blank_and_not_concurrent (events : list Event) :
  let s := run events initial in
  Forall notBlank (sendCalls s) /\
  List.length (sendCalls s) + (if isLoading s then 0 else 1)
  <= 1 + List.length (filter endsStream events).
Proof.
  apply (@run_sendCalls events initial 0); [apply Forall_nil|cbn; lia].
Qed.

(** The web-search switch does not cancel a request in flight: the
    greeting it puts in place of the conversation is overwritten by the
    next chunk of the old answer. *)
Theorem late_chunk_overwrites_the_greeting (s : State) (chunk : StreamChunk) :
  isLoading s = true ->
  exists srcs,
    messages (run [ToggleGrounding; Chunk chunk] s)
    = [mkMessage model (modelResponse s ++ toStringOpt (chunkText chunk))
                 (Some srcs)].
Proof.
  intros Hl; unfold run; cbn [fold_left step].
  unfold toggleGrounding, initializeChat; cbn [isLoading]; rewrite Hl.
  unfold onChunk; cbn [messages modelResponse replaceLast].
  eexists; reflexivity.
Qed.

End ChatBotComponent.

Lemma handleSend_streams_witness :
  let s := ChatBot.run
             (ChatBot.Send
                :: map ChatBot.Chunk
                     [ChatBot.mkChunk (Some (Js.lit "Hel")) None;
                      ChatBot.mkChunk (Some (Js.lit "lo")) None]
                ++ [ChatBot.StreamEnd])
             (ChatBot.setInput (Js.lit " hi ") ChatBot.initial) in
  ChatBot.messages s
    = ChatBot.messages (ChatBot.setInput (Js.lit " hi ") ChatBot.initial)
      ++ [ChatBot.mkMessage ChatBot.user (Js.lit " hi ") None;
          ChatBot.mkMessage ChatBot.model (Js.lit "Hello") (Some [])] /\
  ChatBot.input s = [] /\ ChatBot.isLoading s = false /\
  ChatBot.error s = None /\
  ChatBot.sendCalls s = [Js.lit " hi "].
Proof.
  apply (@handleSend_streams_the_answer
           (ChatBot.setInput (Js.lit " hi ") ChatBot.initial)
           [ChatBot.mkChunk (Some (Js.lit "Hel")) None;
            ChatBot.mkChunk (Some (Js.lit "lo")) None]).
  - reflexivity.
  - reflexivity.
Defined.

Lemma handleSend_failure_witness :
  let s := ChatBot.run
             (ChatBot.Send
                :: map ChatBot.Chunk [ChatBot.mkChunk (Some (Js.lit "Hel")) None]
                ++ [ChatBot.StreamError])
             (ChatBot.setInput (Js.lit "hi") ChatBot.initial) in
  ChatBot.messages s
    = ChatBot.messages (ChatBot.setInput (Js.lit "hi") ChatBot.initial)
      ++ [ChatBot.mkMessage ChatBot.user (Js.lit "hi") None] /\
  ChatBot.isLoading s = false /\ ChatBot.error s = Some ChatBot.somethingWentWrong.
Proof.
  apply (@handleSend_failure_drops_the_answer
           (ChatBot.setInput (Js.lit "hi") ChatBot.initial)
           [ChatBot.mkChunk (Some (Js.lit "Hel")) None]).
  - reflexivity.
  - reflexivity.
Defined.

Lemma late_chunk_witness :
  exists srcs,
    ChatBot.messages
      (ChatBot.run [ChatBot.ToggleGrounding;
                    ChatBot.Chunk (ChatBot.mkChunk (Some (Js.lit "Hel")) None)]
         (ChatBot.handleSend (ChatBot.setInput (Js.lit "hi") ChatBot.initial)))
    = [ChatBot.mkMessage ChatBot.model
         (ChatBot.modelResponse
            (ChatBot.handleSend (ChatBot.setInput (Js.lit "hi") ChatBot.initial))
          ++ Js.toStringOpt (Some (Js.lit "Hel")))
         (Some srcs)].
Proof.
  apply (@late_chunk_overwrites_the_greeting
           (ChatBot.handleSend (ChatBot.setInput (Js.lit "hi") ChatBot.initial))
           (ChatBot.mkChunk (Some (Js.lit "Hel")) None)).
  reflexivity.
Defined.
